(** * scripts/generate_voice_samples.py: the batch voice-sample generator

    A shallow embedding of the script and the properties of its batch run.

    What is modelled, and how:
    - [pathlib] paths on POSIX: a path is its root and the list of its
      names; [output_dir / f"{voice}.mp3"] goes through pathlib's parser
      (split on "/", empty and "." names dropped, an absolute right operand
      replaces the left one);
    - the filesystem: a finite map from paths to the bytes of the regular
      file stored there, keyed by the path as pathlib writes it (".." and
      symbolic links are not resolved).  Directories are not in the map;
      what the script can see of them comes from the environment, as events:
      [mkdir] of line 91 raising, [unlink] of line 111 raising (on a
      directory named [*.mp3], say), the test of line 39 raising (a name the
      system refuses); [write_bytes] can fail, the way the environment says.
      A directory standing where a sample is looked for is not modelled;
    - the remote service: every response is an input of the model, so that
      the theorems hold whatever the service answers;
    - the thread pool: [ThreadPoolExecutor(max_workers=n)] raises ValueError
      for [n <= 0]; otherwise queued work items are started in submission
      order, and one is started only while fewer than [n] are running.  A
      run of the pool is a sequence of events (start, response, write,
      collect), executed one by one by the function [exec]; [generate_sample]
      is cut into the three stretches between which other work items can
      run, and is also given as one function, run without interruption.  A
      work item whose test of line 39 raises ends with the exception in its
      future; [future.result()] raises it again in the loop of line 124,
      and the pool, on leaving the [with] block, still runs every other
      work item to its end;
    - exit status: [sys.exit(1)] and an uncaught exception both end the
      process with status 1, a normal return of [main] with status 0.
      [main] gives the runs in which neither line 91, line 111 nor a future
      raises; [process] gives every run.

    Console output and the elapsed-time measurement are left out.  The
    [size_kb] field of a result is a rounding of [len(resp.content)], which
    the embedding keeps as the byte count. *)

From Stdlib Require Import ZArith Lia Ascii String.
From stdpp Require Import gmap strings list fin_maps pretty.

Open Scope string_scope.

(** ** Bytes *)

Abbreviation bytes := (list Byte.byte).

(** ** Paths (pathlib.PurePosixPath) *)

Record Path := mkPath { root : string; parts : list string }.

#[global] Instance Path_eq_dec : EqDecision Path.
Proof. solve_decision. Defined.

#[global] Instance Path_countable : Countable Path.
Proof.
  apply (inj_countable' (λ p, (root p, parts p)) (λ t, mkPath t.1 t.2)).
  by intros [].
Defined.

(** [s.split("/")] *)
Fixpoint split_sep (s : string) : list string :=
  match s with
  | EmptyString => [""]
  | String c s' =>
      if Ascii.eqb c "/"%char then "" :: split_sep s'
      else match split_sep s' with
           | [] => [String c ""]
           | x :: xs => String c x :: xs
           end
  end.

(** [s.lstrip("/")] together with the number of characters stripped *)
Fixpoint lstrip_sep (s : string) : nat * string :=
  match s with
  | String c s' =>
      if Ascii.eqb c "/"%char then let '(n, r) := lstrip_sep s' in (S n, r)
      else (0, s)
  | EmptyString => (0, s)
  end.

(** The POSIX flavour's [splitroot]: exactly two leading slashes are kept as
    the root "//", any other positive number of them is the root "/". *)
Definition splitroot (s : string) : string * string :=
  let '(n, rel) := lstrip_sep s in
  match n with
  | 0 => ("", rel)
  | 2 => ("//", rel)
  | _ => ("/", rel)
  end.

Definition keep_name (x : string) : bool :=
  negb (String.eqb x "") && negb (String.eqb x ".").

(** The names of one path segment, as [parse_parts] collects them. *)
Definition parse_names (rel : string) : list string :=
  List.filter keep_name (split_sep rel).

(** [p / s] *)
Definition joinpath (p : Path) (s : string) : Path :=
  let '(r, rel) := splitroot s in
  if String.eqb r "" then mkPath (root p) (parts p ++ parse_names rel)
  else mkPath r (parse_names rel).

Notation "p // s" := (joinpath p s) (at level 40, left associativity).

(** [p.parent] *)
Definition parent (p : Path) : Path :=
  mkPath (root p) (removelast (parts p)).

(** [fnmatch(name, "*" + suffix)]: the name ends with the suffix
    (case-sensitive, hidden names included, as pathlib's glob does). *)
Fixpoint ends_with (suffix s : string) : bool :=
  if String.eqb s suffix then true
  else match s with
       | EmptyString => false
       | String _ s' => ends_with suffix s'
       end.

(** A direct child of [dir] whose name matches "*.mp3". *)
Definition is_mp3_child (dir p : Path) : bool :=
  match List.rev (parts p) with
  | name :: rdir =>
      bool_decide (root p = root dir) && bool_decide (List.rev rdir = parts dir)
      && ends_with ".mp3" name
  | [] => false
  end.

(** ** The filesystem *)

Abbreviation FS := (gmap Path bytes).

(** [p.exists()] *)
Definition exists_ (fs : FS) (p : Path) : bool := bool_decide (is_Some (fs !! p)).

(** [p.stat().st_size], for a path that exists *)
Definition st_size (fs : FS) (p : Path) : nat := from_option length 0 (fs !! p).

(** [dir.glob("*.mp3")] *)
Definition glob_mp3 (fs : FS) (dir : Path) : list Path :=
  List.filter (is_mp3_child dir) (map fst (map_to_list fs)).

(** [p.unlink()] *)
Definition unlink (p : Path) (fs : FS) : FS := delete p fs.

(** ** Exceptions *)

Inductive exn :=
| RequestException (msg : string)   (* ConnectionError, Timeout, ... *)
| HTTPError (msg : string)          (* raise_for_status *)
| BodyError (msg : string)          (* resp.json() fails, or no "voices" key *)
| OSError (msg : string)            (* mkdir, exists, stat, unlink, write_bytes *)
| ValueError (msg : string)         (* ThreadPoolExecutor(max_workers <= 0) *)
| TypeError (msg : string).         (* len() of a value that has none *)

(** [str(e)] *)
Definition str (e : exn) : string :=
  match e with
  | RequestException m | HTTPError m | BodyError m | OSError m | ValueError m
  | TypeError m => m
  end.

(** ** The remote service *)

Record Payload := mkPayload {
  p_model : string;
  p_input : string;
  p_voice : string;
  p_response_format : string;
  p_stream : bool;
  p_speed : Z * Z                    (* the decimal 1.0 as 10/10 *)
}.

Inductive request :=
| GET (url : string)
| POST (url : string) (json : Payload).

(** What [resp.json()["voices"]] evaluates to, when it does not raise: the
    identifiers [for voice in voices] goes through (the items of a list; of
    a string its characters, of an object its keys), or a value that has no
    [len()] (null, a number, a boolean), given by the name of its type.
    Items that are not strings are not modelled. *)
Inductive voices_value :=
| Voices (l : list string)
| Unsized (type_name : string).

(** A response of the service.  [json_voices] is what the expression
    [resp.json()["voices"]] does: it raises (the body is not JSON, or has
    no such field), or it has a value. *)
Record Response := mkResponse {
  status_code : Z;
  reason : string;
  resp_url : string;                   (* resp.url *)
  content : bytes;
  json_voices : exn + voices_value
}.

(** What a call of [requests.get] or [requests.post] does: it raises (no
    connection, timeout, a body that cannot be read), or returns a response. *)
Inductive http_outcome :=
| Raises (e : exn)
| Returns (r : Response).

(** [resp.raise_for_status()] *)
Definition raise_for_status (r : Response) : option exn :=
  if bool_decide (400 ≤ status_code r < 500)%Z then
    Some (HTTPError (pretty (status_code r) ++ " Client Error: " ++ reason r
                     ++ " for url: " ++ resp_url r))
  else if bool_decide (500 ≤ status_code r < 600)%Z then
    Some (HTTPError (pretty (status_code r) ++ " Server Error: " ++ reason r
                     ++ " for url: " ++ resp_url r))
  else None.

(** What [write_bytes] does: it writes the whole buffer, or raises.  When it
    raises, either the file could not be opened ([reached = None], nothing
    changes) or it was opened, hence truncated, and only the first [n] bytes
    reached it. *)
Inductive write_outcome :=
| Written
| WriteFails (e : exn) (reached : option nat).

Definition write_bytes (p : Path) (data : bytes) (wo : write_outcome) (fs : FS)
  : option exn * FS :=
  match wo with
  | Written => (None, <[p := data]> fs)
  | WriteFails e None => (Some e, fs)
  | WriteFails e (Some n) => (Some e, <[p := take n data]> fs)
  end.

(** ** Results *)

Inductive status := st_ok | st_skipped | st_error.

(** The dict returned by [generate_sample]. *)
Inductive sample_result :=
| Ok (voice : string) (path : Path) (size : nat)
| Skipped (voice : string) (path : Path)
| Error (voice : string) (error : string).

(** [result["status"]] *)
Definition status_of (r : sample_result) : status :=
  match r with
  | Ok _ _ _ => st_ok
  | Skipped _ _ => st_skipped
  | Error _ _ => st_error
  end.

(** [result["voice"]] *)
Definition voice_of (r : sample_result) : string :=
  match r with
  | Ok v _ _ | Skipped v _ | Error v _ => v
  end.

(** The dict [results] of [main]: one counter per status. *)
Record tally := mkTally { n_ok : nat; n_skipped : nat; n_error : nat }.

(** [results[status] += 1] *)
Definition bump (s : status) (t : tally) : tally :=
  match s with
  | st_ok => mkTally (S (n_ok t)) (n_skipped t) (n_error t)
  | st_skipped => mkTally (n_ok t) (S (n_skipped t)) (n_error t)
  | st_error => mkTally (n_ok t) (n_skipped t) (S (n_error t))
  end.

(** [sum(results.values())] *)
Definition total (t : tally) : nat := n_ok t + n_skipped t + n_error t.

(** ** get_voices *)

Definition SAMPLE_TEXT : string := "Hello Everyone, Welcome to Dexterous!".

Definition voices_url (api_url : string) : string := api_url ++ "/v1/audio/voices".
Definition speech_url (api_url : string) : string := api_url ++ "/v1/audio/speech".

(** Lines 29-31, for what the GET to [voices_url api_url] does.  The value
    of the field is returned as it is, a list or not. *)
Definition get_voices (api_url : string) (o : http_outcome) : exn + voices_value :=
  match o with
  | Raises e => inl e
  | Returns resp =>
      match raise_for_status resp with
      | Some e => inl e
      | None => json_voices resp
      end
  end.

(** ** generate_sample, in the three stretches between which other work
       items can run *)

Definition output_path (output_dir : Path) (voice : string) : Path :=
  output_dir // (voice ++ ".mp3").

Definition payload (voice : string) : Payload :=
  mkPayload "kokoro" SAMPLE_TEXT voice "mp3" false (10, 10)%Z.

(** Lines 36-52: the skip test, then the request is sent.  (When the test
    itself raises, the call ends there with the exception: the event
    [EvCrash] of the pool.) *)
Definition gs_begin (api_url voice : string) (output_dir : Path) (fs : FS)
  : sample_result + request :=
  let output_path := output_path output_dir voice in
  if exists_ fs output_path && bool_decide (0 < st_size fs output_path)
  then inl (Skipped voice output_path)
  else inr (POST (speech_url api_url) (payload voice)).

(** Lines 52-57: the call returns or raises, then [raise_for_status]. *)
Definition gs_response (o : http_outcome) : exn + bytes :=
  match o with
  | Raises e => inl e
  | Returns resp =>
      match raise_for_status resp with
      | Some e => inl e
      | None => inr (content resp)
      end
  end.

(** Lines 59-67: the write, and the result dict. *)
Definition gs_store (voice : string) (output_dir : Path) (data : bytes)
    (wo : write_outcome) (fs : FS) : sample_result * FS :=
  let output_path := output_path output_dir voice in
  match write_bytes output_path data wo fs with
  | (None, fs') => (Ok voice output_path (length data), fs')
  | (Some e, fs') => (Error voice (str e), fs')
  end.

(** The except clause of line 66. *)
Definition gs_except (voice : string) (e : exn) : sample_result :=
  Error voice (str e).

(** [generate_sample], run without interruption: the result, the filesystem
    it leaves and the requests it sent. *)
Definition generate_sample (api_url voice : string) (output_dir : Path)
    (po : http_outcome) (wo : write_outcome) (fs : FS)
  : sample_result * FS * list request :=
  match gs_begin api_url voice output_dir fs with
  | inl r => (r, fs, [])
  | inr req =>
      match gs_response po with
      | inl e => (gs_except voice e, fs, [req])
      | inr data =>
          let '(r, fs') := gs_store voice output_dir data wo fs in
          (r, fs', [req])
      end
  end.

(** ** The pool of work items *)

Inductive phase :=
| Queued                          (* submitted, not started *)
| Posting                         (* requests.post in flight *)
| Writing (data : bytes)          (* response accepted, write_bytes next *)
| Finished (r : sample_result)    (* the future holds its result *)
| Collected (r : sample_result)   (* yielded by as_completed and tallied *)
| Crashed (e : exn)               (* the future holds an exception *)
| Reraised (e : exn).             (* future.result() has raised it in main *)

Definition is_running (ph : phase) : bool :=
  match ph with Posting | Writing _ => true | _ => false end.

Definition is_posting (ph : phase) : bool :=
  match ph with Posting => true | _ => false end.

Definition is_queued (ph : phase) : bool :=
  match ph with Queued => true | _ => false end.

Definition is_collected (ph : phase) : bool :=
  match ph with Collected _ => true | _ => false end.

Definition is_reraised (ph : phase) : bool :=
  match ph with Reraised _ => true | _ => false end.

(** The work item is neither waiting nor running. *)
Definition is_settled (ph : phase) : bool :=
  match ph with Queued | Posting | Writing _ => false | _ => true end.

Record pool := mkPool {
  fs : FS;                  (* the filesystem *)
  sent : list request;      (* the requests sent so far, latest first *)
  items : list phase;       (* one entry per submitted future *)
  results : tally
}.

(** The number of work items a worker thread is running. *)
Definition running (st : pool) : nat := length (List.filter is_running (items st)).

(** The number of synthesis requests in flight. *)
Definition in_flight (st : pool) : nat := length (List.filter is_posting (items st)).

(** The index of the first work item still in the queue. *)
Fixpoint first_queued (l : list phase) : option nat :=
  match l with
  | [] => None
  | Queued :: _ => Some 0
  | _ :: l' => S <$> first_queued l'
  end.

Inductive event :=
| EvStart                                  (* a free worker takes the next item *)
| EvRespond (i : nat) (o : http_outcome)   (* the POST of item i comes back *)
| EvWrite (i : nat) (o : write_outcome)    (* item i writes its file *)
| EvCollect (i : nat)                      (* as_completed yields future i *)
| EvCrash (e : exn)                        (* a free worker takes the next item,
                                              whose test of line 39 raises *)
| EvMkdirRaises (e : exn)                  (* line 91 raises *)
| EvUnlinkRaises (e : exn) (removed : list Path).
                                           (* line 111 raises, after the files
                                              [removed] were unlinked *)

(** The loop of line 124 is running: no [future.result()] has raised. *)
Definition main_alive (l : list phase) : bool :=
  forallb (λ ph, negb (is_reraised ph)) l.

(** The file at [p] exists and is not empty: what the skip test of line 39
    looks for. *)
Definition nonempty_file (fs : FS) (p : Path) : Prop :=
  ∃ data, fs !! p = Some data ∧ data ≠ [].

(** A sample was generated, and it is not empty. *)
Definition generated_nonempty (r : sample_result) : Prop :=
  ∃ voice path size, r = Ok voice path size ∧ 0 < size.

(** The result a phase holds, if any. *)
Definition result_of (ph : phase) : option sample_result :=
  match ph with
  | Finished r | Collected r => Some r
  | _ => None
  end.

(** The pool of lines 118-135, for a fixed service address, list of voices,
    output directory and number of workers. *)
Section Pool.
Variable api_url : string.
Variable voices : list string.
Variable output_dir : Path.
Variable max_workers : Z.

Definition set_item (i : nat) (ph : phase) (st : pool) : pool :=
  mkPool (fs st) (sent st) (<[i := ph]> (items st)) (results st).

(** One event of the run; [None] when the event cannot happen in [st]. *)
Definition exec (ev : event) (st : pool) : option pool :=
  match ev with
  | EvStart =>
      if bool_decide (Z.of_nat (running st) < max_workers)%Z then
        i ← first_queued (items st);
        voice ← voices !! i;
        match gs_begin api_url voice output_dir (fs st) with
        | inl r => Some (set_item i (Finished r) st)
        | inr req =>
            Some (mkPool (fs st) (req :: sent st) (<[i := Posting]> (items st))
                    (results st))
        end
      else None
  | EvRespond i o =>
      voice ← voices !! i;
      match items st !! i with
      | Some Posting =>
          match gs_response o with
          | inl e => Some (set_item i (Finished (gs_except voice e)) st)
          | inr data => Some (set_item i (Writing data) st)
          end
      | _ => None
      end
  | EvWrite i wo =>
      voice ← voices !! i;
      match items st !! i with
      | Some (Writing data) =>
          let '(r, fs') := gs_store voice output_dir data wo (fs st) in
          Some (mkPool fs' (sent st) (<[i := Finished r]> (items st)) (results st))
      | _ => None
      end
  | EvCollect i =>
      if main_alive (items st) then
        match items st !! i with
        | Some (Finished r) =>
            Some (mkPool (fs st) (sent st) (<[i := Collected r]> (items st))
                    (bump (status_of r) (results st)))
        | Some (Crashed e) => Some (set_item i (Reraised e) st)
        | _ => None
        end
      else None
  | EvCrash e =>
      if bool_decide (Z.of_nat (running st) < max_workers)%Z then
        i ← first_queued (items st);
        voice ← voices !! i;
        Some (set_item i (Crashed e) st)
      else None
  | EvMkdirRaises _ | EvUnlinkRaises _ _ => None
  end.

(** A sequence of events, from first to last. *)
Fixpoint run (evs : list event) (st : pool) : option pool :=
  match evs with
  | [] => Some st
  | ev :: evs' => st' ← exec ev st; run evs' st'
  end.

(** Every future submitted, none started; [results] all zero. *)
Definition pool_init (fs0 : FS) (sent0 : list request) : pool :=
  mkPool fs0 sent0 (replicate (length voices) Queued) (mkTally 0 0 0).

(** The [for] loop of line 124 has consumed every future. *)
Definition all_collected (st : pool) : bool := forallb is_collected (items st).

(** The events as a relation, one rule per way an event can happen. *)
Inductive step : event → pool → pool → Prop :=
| step_skip st i voice r :
    (Z.of_nat (running st) < max_workers)%Z →
    first_queued (items st) = Some i →
    voices !! i = Some voice →
    gs_begin api_url voice output_dir (fs st) = inl r →
    step EvStart st (set_item i (Finished r) st)
| step_post st i voice req :
    (Z.of_nat (running st) < max_workers)%Z →
    first_queued (items st) = Some i →
    voices !! i = Some voice →
    gs_begin api_url voice output_dir (fs st) = inr req →
    step EvStart st
      (mkPool (fs st) (req :: sent st) (<[i := Posting]> (items st)) (results st))
| step_fail st i voice o e :
    voices !! i = Some voice →
    items st !! i = Some Posting →
    gs_response o = inl e →
    step (EvRespond i o) st (set_item i (Finished (gs_except voice e)) st)
| step_recv st i voice o data :
    voices !! i = Some voice →
    items st !! i = Some Posting →
    gs_response o = inr data →
    step (EvRespond i o) st (set_item i (Writing data) st)
| step_write st i voice wo data r fs' :
    voices !! i = Some voice →
    items st !! i = Some (Writing data) →
    gs_store voice output_dir data wo (fs st) = (r, fs') →
    step (EvWrite i wo) st
      (mkPool fs' (sent st) (<[i := Finished r]> (items st)) (results st))
| step_collect st i r :
    items st !! i = Some (Finished r) →
    main_alive (items st) = true →
    step (EvCollect i) st
      (mkPool (fs st) (sent st) (<[i := Collected r]> (items st))
         (bump (status_of r) (results st)))
| step_crash st i voice e :
    (Z.of_nat (running st) < max_workers)%Z →
    first_queued (items st) = Some i →
    voices !! i = Some voice →
    step (EvCrash e) st (set_item i (Crashed e) st)
| step_reraise st i e :
    items st !! i = Some (Crashed e) →
    main_alive (items st) = true →
    step (EvCollect i) st (set_item i (Reraised e) st).

(** Every result sits in the slot of its own voice. *)
Definition results_match (st : pool) : Prop :=
  ∀ i ph r, items st !! i = Some ph → result_of ph = Some r →
            voices !! i = Some (voice_of r).
(** No file yet for the queued voices, and no result [skipped]. *)
Definition fresh (st : pool) : Prop :=
  (∀ i voice, voices !! i = Some voice → items st !! i = Some Queued →
              fs st !! output_path output_dir voice = None)
  ∧ (∀ i ph r, items st !! i = Some ph → result_of ph = Some r →
               status_of r ≠ st_skipped).
(** Some work item with output path [p] has a result other than a
    non-empty generated sample. *)
Definition spoiled (p : Path) (st : pool) : Prop :=
  ∃ i voice ph r,
    voices !! i = Some voice ∧ output_path output_dir voice = p
    ∧ items st !! i = Some ph ∧ result_of ph = Some r
    ∧ ¬ generated_nonempty r.

(** A non-empty generated sample is on disk, unless a work item with the
    same output path spoiled it. *)
Definition written_ok (st : pool) : Prop :=
  ∀ i voice ph r,
    voices !! i = Some voice → items st !! i = Some ph →
    result_of ph = Some r → generated_nonempty r →
    nonempty_file (fs st) (output_path output_dir voice)
    ∨ spoiled (output_path output_dir voice) st.

(** Nothing written, nothing sent, no work item running, and every result
    so far is [skipped]. *)
Definition all_skipping (fs1 : FS) (sent0 : list request) (st : pool) : Prop :=
  fs st = fs1 ∧ sent st = sent0
  ∧ ∀ i ph, items st !! i = Some ph →
            is_running ph = false
            ∧ ∀ r, result_of ph = Some r → status_of r = st_skipped.
End Pool.

(** ** main *)

Record Args := mkArgs { arg_api_url : string; batch_size : Z; force : bool }.

Definition default_args : Args := mkArgs "http://localhost:8880" 3 false.

(** [Path(__file__).resolve().parent.parent / "web" / "voice_samples"] *)
Definition OUTPUT_DIR (script_file : Path) : Path :=
  parent (parent script_file) // "web" // "voice_samples".

(** Lines 110-111: [for f in OUTPUT_DIR.glob("*.mp3"): f.unlink()] *)
Definition clear_samples (dir : Path) (fs : FS) : FS :=
  fold_left (λ fs' f, unlink f fs') (glob_mp3 fs dir) fs.

(** [ThreadPoolExecutor(max_workers=n)] *)
Definition ThreadPoolExecutor (n : Z) : option exn :=
  if bool_decide (n ≤ 0)%Z then Some (ValueError "max_workers must be greater than 0")
  else None.

(** How the process ends. *)
Inductive outcome :=
| SysExit (code : Z) (fs : FS) (sent : list request)   (* line 100 *)
| Uncaught (e : exn) (fs : FS) (sent : list request)   (* traceback *)
| Returned (st : pool).                                (* main returns *)

Definition exit_code (o : outcome) : Z :=
  match o with
  | SysExit code _ _ => code
  | Uncaught _ _ _ => 1
  | Returned _ => 0
  end.

Definition out_fs (o : outcome) : FS :=
  match o with
  | SysExit _ fs _ | Uncaught _ fs _ => fs
  | Returned st => fs st
  end.

Definition out_sent (o : outcome) : list request :=
  match o with
  | SysExit _ _ s | Uncaught _ _ s => s
  | Returned st => sent st
  end.

(** The results of the futures, in the order of the voice list. *)
Definition out_results (o : outcome) : list sample_result :=
  match o with
  | Returned st => omap result_of (items st)
  | _ => []
  end.

Definition out_tally (o : outcome) : tally :=
  match o with
  | Returned st => results st
  | _ => mkTally 0 0 0
  end.

Definition is_post (r : request) : bool :=
  match r with POST _ _ => true | GET _ => false end.

(** The synthesis requests among the requests sent. *)
Definition posts (l : list request) : list request := List.filter is_post l.

(** Lines 88-122 of [main]: the voice list is fetched, [--force] clears the
    samples and the pool is made with every future submitted.  Either the
    process ends there, or the pool starts from the state returned (with the
    voice list). *)
Definition main_setup (script_file : Path) (args : Args) (go : http_outcome)
    (fs0 : FS) : outcome + (list string * pool) :=
  let sent0 := [GET (voices_url (arg_api_url args))] in
  match get_voices (arg_api_url args) go with
  | inl e => inl (SysExit 1 fs0 sent0)
  | inr (Unsized ty) =>                                  (* line 102 *)
      inl (Uncaught (TypeError ("object of type '" ++ ty ++ "' has no len()"))
             fs0 sent0)
  | inr (Voices voices) =>
      let fs1 := if force args then clear_samples (OUTPUT_DIR script_file) fs0
                 else fs0 in
      match ThreadPoolExecutor (batch_size args) with
      | Some e => inl (Uncaught e fs1 sent0)
      | None => inr (voices, pool_init voices fs1 sent0)
      end
  end.

(** [main], for the command line [args], the answer [go] of the
    voice-listing endpoint, a schedule [evs] of the pool and the filesystem
    [fs0] the process starts with, in the runs where neither [mkdir], nor
    [unlink], nor the result of a future raises.  The result is [None] when
    [evs] is not a complete schedule of the pool: an event that cannot
    happen, or futures left uncollected.  The schedule is not looked at
    when no pool is made. *)
Definition main (script_file : Path) (args : Args) (go : http_outcome)
    (evs : list event) (fs0 : FS) : option outcome :=
  match main_setup script_file args go fs0 with
  | inl o => Some o
  | inr (voices, st0) =>
      st ← run (arg_api_url args) voices (OUTPUT_DIR script_file)
             (batch_size args) evs st0;
      if all_collected st then Some (Returned st) else None
  end.

(** The filesystem a run leaves behind. *)
Definition fs_after (script_file : Path) (args : Args) (go : http_outcome)
    (evs : list event) (fs0 : FS) : FS :=
  from_option out_fs fs0 (main script_file args go evs fs0).

(** A state the pool of [main] can be in: some events of a schedule have
    happened. *)
Definition main_reaches (script_file : Path) (args : Args) (go : http_outcome)
    (evs : list event) (fs0 : FS) (st : pool) : Prop :=
  ∃ voices st0,
    main_setup script_file args go fs0 = inr (voices, st0)
    ∧ run (arg_api_url args) voices (OUTPUT_DIR script_file)
        (batch_size args) evs st0 = Some st.

(** ** Every run of the process *)

(** Lines 110-111 when an [unlink] raises: of the files the pattern matches,
    those of [removed] are gone. *)
Definition clear_some (dir : Path) (removed : list Path) (fs : FS) : FS :=
  fold_left (λ fs' f, unlink f fs')
    (List.filter (λ f, bool_decide (f ∈ glob_mp3 fs dir)) removed) fs.

(** The exception that [future.result()] raised in the loop of line 124. *)
Fixpoint reraised (l : list phase) : option exn :=
  match l with
  | [] => None
  | Reraised e :: _ => Some e
  | _ :: l' => reraised l'
  end.

(** How the [with] block of line 118 is left: every future was collected
    and [main] goes on to its end; or [future.result()] raised, the pool
    has run the remaining work items to their end (the executor's
    [shutdown(wait=True)]), and the exception leaves [main].  [None] while
    work is left. *)
Definition pool_end (st : pool) : option outcome :=
  if all_collected st then Some (Returned st)
  else match reraised (items st) with
       | Some e =>
           if forallb is_settled (items st)
           then Some (Uncaught e (fs st) (sent st))
           else None
       | None => None
       end.

(** The process [python scripts/generate_voice_samples.py], every run of
    it: [main] with the exceptions that can leave it.  The events
    [EvMkdirRaises] and [EvUnlinkRaises] can only come first in [evs]. *)
Definition process (script_file : Path) (args : Args) (go : http_outcome)
    (evs : list event) (fs0 : FS) : option outcome :=
  match evs with
  | EvMkdirRaises e :: _ => Some (Uncaught e fs0 [])          (* line 91 *)
  | EvUnlinkRaises e removed :: _ =>                          (* line 111 *)
      match get_voices (arg_api_url args) go with
      | inr (Voices _) =>
          if force args
          then Some (Uncaught e (clear_some (OUTPUT_DIR script_file) removed fs0)
                       [GET (voices_url (arg_api_url args))])
          else None
      | _ =>
          match main_setup script_file args go fs0 with
          | inl o => Some o
          | inr _ => None
          end
      end
  | _ =>
      match main_setup script_file args go fs0 with
      | inl o => Some o
      | inr (voices, st0) =>
          st ← run (arg_api_url args) voices (OUTPUT_DIR script_file)
                 (batch_size args) evs st0;
          pool_end st
      end
  end.



(** ** Predicates used in the statements *)

(** Line 91 raises. *)
Definition mkdir_raises (evs : list event) : Prop :=
  ∃ e evs', evs = EvMkdirRaises e :: evs'.

(** An [unlink] of line 111 raises. *)
Definition unlink_raises (evs : list event) : Prop :=
  ∃ e removed evs', evs = EvUnlinkRaises e removed :: evs'.




(** The write of work item [i] fails after bytes have reached the file. *)
Definition partial_write (i : nat) (ev : event) : Prop :=
  ∃ e n, ev = EvWrite i (WriteFails e (Some (S n))).

(** The work item is past a skip test that found no sample, and has not
    generated one. *)
Definition attempting (ph : phase) : Prop :=
  is_running ph = true ∨ ∃ r, result_of ph = Some r ∧ status_of r = st_error.




(** An absolute path without "..": with no links in the way, two such
    paths that differ name different files. *)
Definition canonical (p : Path) : Prop := root p = "/" ∧ ".." ∉ parts p.

(** The string contains the path separator. *)
Fixpoint has_sep (s : string) : bool :=
  match s with
  | EmptyString => false
  | String c s' => Ascii.eqb c "/"%char || has_sep s'
  end.

(** A voice identifier that is a plain file-name stem. *)
Definition plain_voice (v : string) : Prop := has_sep v = false.

(** The weight of a phase: the number of events a work item still needs. *)
Definition weight (ph : phase) : nat :=
  match ph with
  | Queued => 4
  | Posting => 3
  | Writing _ => 2
  | Finished _ | Crashed _ => 1
  | Collected _ | Reraised _ => 0
  end.

Definition measure (st : pool) : nat := sum_list_with weight (items st).

#[global] Instance status_eq_dec : EqDecision status.
Proof. solve_decision. Defined.

(** The number of collected results with a given status. *)
Definition collected_as (s : status) (ph : phase) : bool :=
  match ph with
  | Collected r => bool_decide (status_of r = s)
  | _ => false
  end.

Definition count_collected (s : status) (l : list phase) : nat :=
  length (List.filter (collected_as s) l).

(** The number of results with a given status. *)
Definition count_status (s : status) (rs : list sample_result) : nat :=
  length (List.filter (λ r, bool_decide (status_of r = s)) rs).

(** The work item has sent its synthesis request. *)
Definition has_posted (ph : phase) : bool :=
  match ph with
  | Queued => false
  | Posting | Writing _ => true
  | Finished r | Collected r => negb (bool_decide (status_of r = st_skipped))
  | Crashed _ | Reraised _ => false
  end.

(** The synthesis requests sent are those of the work items that got past
    the skip test. *)
Definition sent_matches (st : pool) : Prop :=
  length (posts (sent st)) = length (List.filter has_posted (items st)).

(** The counters count the collected results. *)
Definition tally_matches (st : pool) : Prop :=
  n_ok (results st) = count_collected st_ok (items st)
  ∧ n_skipped (results st) = count_collected st_skipped (items st)
  ∧ n_error (results st) = count_collected st_error (items st).

(** The legal moves of one work item. *)
Inductive moves (voice : string) : phase → phase → Prop :=
| mv_skip p : moves voice Queued (Finished (Skipped voice p))
| mv_post : moves voice Queued Posting
| mv_fail e : moves voice Posting (Finished (Error voice (str e)))
| mv_recv data : moves voice Posting (Writing data)
| mv_ok data p : moves voice (Writing data) (Finished (Ok voice p (length data)))
| mv_lost data e : moves voice (Writing data) (Finished (Error voice (str e)))
| mv_collect r : moves voice (Finished r) (Collected r)
| mv_crash e : moves voice Queued (Crashed e)
| mv_reraise e : moves voice (Crashed e) (Reraised e).

(** ** Sample inputs *)

Definition script0 : Path :=
  mkPath "/" ["repo"; "scripts"; "generate_voice_samples.py"].

Definition audio : bytes := [Byte.x49; Byte.x44; Byte.x33].

(** The voice-listing endpoint answers 200 with the given list. *)
Definition voices_reply (l : list string) : http_outcome :=
  Returns (mkResponse 200 "OK" "http://localhost:8880/v1/audio/voices" []
             (inr (Voices l))).

(** The synthesis endpoint answers 200 with the given body. *)
Definition speech_reply (data : bytes) : http_outcome :=
  Returns (mkResponse 200 "OK" "http://localhost:8880/v1/audio/speech" data
             (inl (BodyError "Expecting value: line 1 column 1 (char 0)"))).

Definition server_error : http_outcome :=
  Returns (mkResponse 500 "Internal Server Error"
             "http://localhost:8880/v1/audio/speech" []
             (inl (BodyError "Expecting value: line 1 column 1 (char 0)"))).

Definition two_voices : list string := ["af_bella"; "am_adam"].

(** Both voices start; the second is synthesized and written, the first
    gets a 500. *)
Definition mixed_schedule : list event :=
  [EvStart; EvStart; EvRespond 1 (speech_reply audio); EvRespond 0 server_error;
   EvWrite 1 Written; EvCollect 1; EvCollect 0].

(** A directory with a sample, a text file and a sample in a sub-directory. *)
Definition mixed_fs : FS :=
  {[ output_path (OUTPUT_DIR script0) "af_bella" := audio;
     OUTPUT_DIR script0 // "notes.txt" := audio;
     output_path (OUTPUT_DIR script0) "sub/x" := audio ]}.

Definition force_args : Args := mkArgs "http://localhost:8880" 3 true.

(** A directory where the sample of af_bella is an empty file. *)
Definition empty_sample_fs : FS :=
  {[ output_path (OUTPUT_DIR script0) "af_bella" := [] ]}.

(** The only voice starts, its request gets a 500. *)
Definition failing_schedule : list event :=
  [EvStart; EvRespond 0 server_error; EvCollect 0].

(** The only voice starts, gets the given body and writes it. *)
Definition writing_schedule (data : bytes) : list event :=
  [EvStart; EvRespond 0 (speech_reply data); EvWrite 0 Written; EvCollect 0].

(** The only voice is skipped. *)
Definition skipping_schedule : list event := [EvStart; EvCollect 0].

(** The only voice starts and gets the given body; the write fails after
    [n] bytes reached the file. *)
Definition partial_write_schedule (data : bytes) (n : nat) : list event :=
  [EvStart; EvRespond 0 (speech_reply data);
   EvWrite 0 (WriteFails (OSError "No space left on device") (Some n));
   EvCollect 0].

(** A voice listed twice, one worker: the first item runs to its end before
    the second starts. *)
Definition duplicate_schedule : list event :=
  [EvStart; EvRespond 0 (speech_reply audio); EvWrite 0 Written; EvStart;
   EvCollect 0; EvCollect 1].





(** ** Further predicates *)

(** While work item [i] is past a skip test that found no sample and has
    not generated one, the output file of its voice is missing or empty. *)
Definition no_sample_left (voices : list string) (output_dir : Path) (i : nat)
    (st : pool) : Prop :=
  ∀ voice ph, voices !! i = Some voice → items st !! i = Some ph →
              attempting ph →
              ¬ nonempty_file (fs st) (output_path output_dir voice).

(** A synthesis request for one of the listed voices. *)
Definition speech_request (api_url : string) (voices : list string)
    (r : request) : Prop :=
  ∃ voice, voice ∈ voices ∧ r = POST (speech_url api_url) (payload voice).

(** The work item has not got past the skip test: it is still queued, or it
    was skipped. *)
Definition idle_or_skipped (ph : phase) : bool := negb (has_posted ph).

(** The file [data] at [p] is as it was, and no work item that has [p] as
    its output path got past the skip test. *)
Definition file_kept (voices : list string) (output_dir : Path) (p : Path)
    (data : bytes) (st : pool) : Prop :=
  fs st !! p = Some data
  ∧ ∀ i voice ph, voices !! i = Some voice →
                  output_path output_dir voice = p →
                  items st !! i = Some ph → idle_or_skipped ph = true.

(** The output files of the queued voices are as the pool found them in
    [fs1]; a work item got past the skip test only when [fs1] had no
    non-empty output file for its voice, and was skipped only when it had
    one. *)
Definition skips_faithful (voices : list string) (output_dir : Path) (fs1 : FS)
    (st : pool) : Prop :=
  (∀ i voice, voices !! i = Some voice → items st !! i = Some Queued →
              fs st !! output_path output_dir voice
              = fs1 !! output_path output_dir voice)
  ∧ (∀ i voice ph, voices !! i = Some voice → items st !! i = Some ph →
                   (has_posted ph = true
                    → ¬ nonempty_file fs1 (output_path output_dir voice))
                   ∧ (∀ r, result_of ph = Some r → status_of r = st_skipped →
                           nonempty_file fs1 (output_path output_dir voice))).

(** The requests sent, latest first: synthesis requests for listed voices,
    after the one GET of the voice list. *)
Definition requests_in_order (api_url : string) (voices : list string)
    (l : list request) : Prop :=
  ∃ ps : list request,
    l = (ps ++ [GET (voices_url api_url)])%list
    ∧ Forall (speech_request api_url voices) ps.

(** * Lemmas *)

(** ** Strings and paths *)

Lemma ends_with_unfold (suffix s : string) :
  ends_with suffix s
  = if String.eqb s suffix then true
    else match s with
         | EmptyString => false
         | String _ s' => ends_with suffix s'
         end.
Proof. by destruct s. Qed.

Lemma ends_with_app (suffix v : string) : ends_with suffix (v ++ suffix) = true.
Proof.
  induction v as [|c v IH]; rewrite ends_with_unfold.
  - change (EmptyString ++ suffix) with suffix. by rewrite String.eqb_refl.
  - change (String c v ++ suffix) with (String c (v ++ suffix)).
    cbv iota. rewrite IH. by destruct (String.eqb _ _).
Qed.

Lemma string_app_length (s t : string) :
  String.length (s ++ t) = String.length s + String.length t.
Proof. induction s as [|c s IH]; simpl; [done | by rewrite IH]. Qed.

Lemma string_app_inj_r (s1 s2 t : string) : s1 ++ t = s2 ++ t → s1 = s2.
Proof.
  revert s2. induction s1 as [|c s1 IH]; intros [|d s2] H; simpl in *.
  - done.
  - apply (f_equal String.length) in H.
    rewrite !string_app_length in H. simpl in H. lia.
  - apply (f_equal String.length) in H.
    rewrite !string_app_length in H. simpl in H. lia.
  - injection H as -> H. f_equal. by apply IH.
Qed.

Lemma has_sep_app (s t : string) : has_sep (s ++ t) = has_sep s || has_sep t.
Proof. induction s as [|c s IH]; simpl; [done|]. rewrite IH. by destruct (Ascii.eqb _ _). Qed.

Lemma split_sep_plain (s : string) : has_sep s = false → split_sep s = [s].
Proof.
  induction s as [|c s IH]; simpl; [done|].
  destruct (Ascii.eqb c "/"); simpl; [done|]. intros H. by rewrite IH.
Qed.

Lemma lstrip_sep_plain (s : string) : has_sep s = false → lstrip_sep s = (0, s).
Proof. destruct s as [|c s]; simpl; [done|]. by destruct (Ascii.eqb c "/"). Qed.

Lemma keep_name_mp3 (v : string) : keep_name (v ++ ".mp3") = true.
Proof.
  unfold keep_name.
  destruct (String.eqb_spec (v ++ ".mp3") "") as [H|_].
  { apply (f_equal String.length) in H. rewrite string_app_length in H. simpl in H. lia. }
  destruct (String.eqb_spec (v ++ ".mp3") ".") as [H|_]; [|done].
  apply (f_equal String.length) in H. rewrite string_app_length in H. simpl in H. lia.
Qed.

(** For a plain voice the output path is the child [<voice>.mp3] of the
    output directory. *)
Lemma output_path_plain (dir : Path) (v : string) :
  plain_voice v →
  output_path dir v = mkPath (root dir) (parts dir ++ [v ++ ".mp3"]).
Proof.
  intros Hv. unfold output_path, joinpath, splitroot.
  assert (Hs : has_sep (v ++ ".mp3") = false) by (rewrite has_sep_app, Hv; done).
  rewrite (lstrip_sep_plain _ Hs). simpl.
  unfold parse_names. rewrite (split_sep_plain _ Hs). simpl.
  by rewrite keep_name_mp3.
Qed.

Lemma output_path_inj (dir : Path) (v1 v2 : string) :
  plain_voice v1 → plain_voice v2 →
  output_path dir v1 = output_path dir v2 → v1 = v2.
Proof.
  intros H1 H2. rewrite !output_path_plain by done.
  intros [= H]. apply app_inv_head in H. injection H as H.
  by apply string_app_inj_r in H.
Qed.

Lemma is_mp3_child_output_path (dir : Path) (v : string) :
  plain_voice v → is_mp3_child dir (output_path dir v) = true.
Proof.
  intros Hv. rewrite output_path_plain by done.
  unfold is_mp3_child. simpl. rewrite rev_app_distr. simpl.
  rewrite rev_involutive, ends_with_app.
  by rewrite !bool_decide_eq_true_2.
Qed.

(** ** The filesystem *)

Lemma fold_unlink_lookup (l : list Path) (fs : FS) (p : Path) :
  fold_left (λ fs' f, unlink f fs') l fs !! p
  = if bool_decide (p ∈ l) then None else fs !! p.
Proof.
  revert fs. induction l as [|q l IH]; intros fs; simpl.
  - done.
  - rewrite IH. unfold unlink.
    destruct (decide (p = q)) as [->|Hne].
    + rewrite lookup_delete_eq.
      rewrite (bool_decide_eq_true_2 (q ∈ q :: l)) by apply list_elem_of_here.
      by destruct (bool_decide (q ∈ l)).
    + rewrite lookup_delete_ne by done.
      rewrite (bool_decide_ext (p ∈ q :: l) (p ∈ l)); [done|].
      rewrite elem_of_cons. split; [intros [?|?]; [congruence | done] | by right].
Qed.

Lemma elem_of_glob_mp3 (fs : FS) (dir p : Path) :
  p ∈ glob_mp3 fs dir ↔ is_mp3_child dir p = true ∧ is_Some (fs !! p).
Proof.
  unfold glob_mp3. rewrite list_elem_of_In, filter_In, <- list_elem_of_In.
  rewrite list_elem_of_fmap. split.
  - intros [([q d] & -> & Hin) Hc]. apply elem_of_map_to_list in Hin. simpl in *. eauto.
  - intros [Hc [d Hd]]. split; [|done]. exists (p, d). split; [done|].
    by apply elem_of_map_to_list.
Qed.

(** What [--force] leaves of the filesystem. *)
Lemma clear_samples_lookup (dir : Path) (fs : FS) (p : Path) :
  clear_samples dir fs !! p = if is_mp3_child dir p then None else fs !! p.
Proof.
  unfold clear_samples. rewrite fold_unlink_lookup.
  case_bool_decide as H.
  - apply elem_of_glob_mp3 in H as [-> _]. done.
  - destruct (is_mp3_child dir p) eqn:Hc; [|done].
    destruct (fs !! p) eqn:Hp; [|done].
    exfalso. apply H, elem_of_glob_mp3. eauto.
Qed.

(** ** Lists of phases *)

Lemma first_queued_lookup (l : list phase) (i : nat) :
  first_queued l = Some i → l !! i = Some Queued.
Proof.
  revert i. induction l as [|ph l IH]; intros i; simpl; [done|].
  destruct ph; try (by intros [= <-]);
    (destruct (first_queued l) as [j|]; simpl; [|done]; intros [= <-]; by apply IH).
Qed.

Lemma first_queued_None (l : list phase) :
  first_queued l = None → Forall (λ ph, is_queued ph = false) l.
Proof.
  induction l as [|ph l IH]; simpl; [by constructor|].
  destruct ph; try done;
    (destruct (first_queued l); simpl; [done|]; intros _; constructor; [done | by apply IH]).
Qed.

Lemma sum_list_with_insert {A} (f : A → nat) (l : list A) (i : nat) (x y : A) :
  l !! i = Some y →
  sum_list_with f (<[i := x]> l) + f y = sum_list_with f l + f x.
Proof.
  revert i. induction l as [|a l IH]; intros [|i]; simpl; try done.
  - intros [= ->]. lia.
  - intros H. specialize (IH _ H). lia.
Qed.

Lemma length_filter_sum {A} (p : A → bool) (l : list A) :
  length (List.filter p l) = sum_list_with (λ x, if p x then 1 else 0) l.
Proof. induction l as [|a l IH]; simpl; [done|]. destruct (p a); simpl; lia. Qed.

(** Replacing one entry changes a count by what the entry contributes. *)
Lemma length_filter_insert {A} (p : A → bool) (l : list A) (i : nat) (x y : A) :
  l !! i = Some y →
  length (List.filter p (<[i := x]> l)) + (if p y then 1 else 0)
  = length (List.filter p l) + (if p x then 1 else 0).
Proof.
  intros H. rewrite !length_filter_sum.
  apply (sum_list_with_insert (λ x, if p x then 1 else 0) l i x y H).
Qed.

Lemma filter_nil_Forall {A} (p : A → bool) (l : list A) :
  length (List.filter p l) = 0 → Forall (λ x, p x = false) l.
Proof.
  induction l as [|a l IH]; simpl; [by constructor|].
  destruct (p a) eqn:Ha; simpl; [lia|]. intros H. constructor; auto.
Qed.

Lemma forallb_lookup {A} (p : A → bool) (l : list A) :
  forallb p l = true ↔ ∀ i x, l !! i = Some x → p x = true.
Proof.
  rewrite forallb_forall. split.
  - intros H i x Hi. apply H, list_elem_of_In, list_elem_of_lookup. eauto.
  - intros H x Hx. apply list_elem_of_In, list_elem_of_lookup in Hx as [i Hi]. eauto.
Qed.

Lemma count_collected_fmap (s : status) (rs : list sample_result) :
  count_collected s (Collected <$> rs) = count_status s rs.
Proof.
  unfold count_collected, count_status.
  induction rs as [|r rs IH]; simpl; [done|].
  destruct (bool_decide (status_of r = s)); simpl; [f_equal|]; apply IH.
Qed.

Lemma omap_result_collected (rs : list sample_result) :
  omap result_of (Collected <$> rs) = rs.
Proof. induction rs as [|r rs IH]; simpl; [done|]. f_equal. apply IH. Qed.

(** ** The skip test *)

Lemma nonempty_file_ext (fs1 fs2 : FS) (p : Path) :
  fs1 !! p = fs2 !! p → nonempty_file fs1 p ↔ nonempty_file fs2 p.
Proof. intros H. unfold nonempty_file. by rewrite H. Qed.


(** The test of line 39 decides between skipping and sending the request. *)
Lemma gs_begin_cases (api_url voice : string) (output_dir : Path) (fs0 : FS) :
  (nonempty_file fs0 (output_path output_dir voice)
   ∧ gs_begin api_url voice output_dir fs0
     = inl (Skipped voice (output_path output_dir voice)))
  ∨ (¬ nonempty_file fs0 (output_path output_dir voice)
     ∧ gs_begin api_url voice output_dir fs0
       = inr (POST (speech_url api_url) (payload voice))).
Proof.
  unfold gs_begin, exists_, st_size.
  destruct (fs0 !! output_path output_dir voice) as [data|] eqn:Hp.
  - destruct data as [|b data].
    + right. split; [|done]. intros (d & Hd & Hne). congruence.
    + left. split; [|done]. exists (b :: data). split; [congruence | done].
  - right. split; [|done]. intros (d & Hd & _). congruence.
Qed.

Lemma gs_begin_skip (api_url voice : string) (output_dir : Path) (fs0 : FS) :
  nonempty_file fs0 (output_path output_dir voice) →
  gs_begin api_url voice output_dir fs0
  = inl (Skipped voice (output_path output_dir voice)).
Proof.
  intros H. by destruct (gs_begin_cases api_url voice output_dir fs0) as [[_ ?]|[? _]].
Qed.

Lemma gs_begin_post (api_url voice : string) (output_dir : Path) (fs0 : FS) :
  ¬ nonempty_file fs0 (output_path output_dir voice) →
  gs_begin api_url voice output_dir fs0
  = inr (POST (speech_url api_url) (payload voice)).
Proof.
  intros H. by destruct (gs_begin_cases api_url voice output_dir fs0) as [[? _]|[_ ?]].
Qed.

(** ** The events of the pool *)

Section PoolFacts.
Variable api_url : string.
Variable voices : list string.
Variable output_dir : Path.
Variable max_workers : Z.

Local Abbreviation exec := (exec api_url voices output_dir max_workers).
Local Abbreviation run := (run api_url voices output_dir max_workers).
Local Abbreviation step := (step api_url voices output_dir max_workers).
Local Abbreviation results_match := (results_match voices).
Local Abbreviation fresh := (fresh voices output_dir).
Local Abbreviation spoiled := (spoiled voices output_dir).
Local Abbreviation written_ok := (written_ok voices output_dir).

Lemma exec_step (ev : event) (st st' : pool) :
  exec ev st = Some st' ↔ step ev st st'.
Proof.
  split.
  - destruct ev as [|i o|i wo|i|e|e|e removed]; simpl; try done.
    + case_bool_decide as Hw; [|done].
      destruct (first_queued (items st)) as [i|] eqn:Hq; simpl; [|done].
      destruct (voices !! i) as [voice|] eqn:Hv; simpl; [|done].
      destruct (gs_begin _ _ _ _) as [r|req] eqn:Hb; intros [= <-].
      * by eapply step_skip.
      * by eapply step_post.
    + destruct (voices !! i) as [voice|] eqn:Hv; simpl; [|done].
      destruct (items st !! i) as [[]|] eqn:Hi; try done.
      destruct (gs_response _) as [e|data] eqn:Hr; intros [= <-].
      * by eapply step_fail.
      * by eapply step_recv.
    + destruct (voices !! i) as [voice|] eqn:Hv; simpl; [|done].
      destruct (items st !! i) as [[]|] eqn:Hi; try done.
      destruct (gs_store _ _ _ _ _) as [r fs'] eqn:Hs. intros [= <-].
      by eapply step_write.
    + destruct (main_alive (items st)) eqn:Ha; [|done].
      destruct (items st !! i) as [[]|] eqn:Hi; try done; intros [= <-].
      * by eapply step_collect.
      * by eapply step_reraise.
    + case_bool_decide as Hw; [|done].
      destruct (first_queued (items st)) as [i|] eqn:Hq; simpl; [|done].
      destruct (voices !! i) as [voice|] eqn:Hv; simpl; [|done].
      intros [= <-]. by eapply step_crash.
  - intros H. destruct H; simpl;
      repeat match goal with
             | H : _ = _ |- _ => rewrite H; simpl
             | H : (_ < _)%Z |- _ => rewrite (bool_decide_eq_true_2 _ H); clear H
             end; done.
Qed.

(** One event moves one work item, along one of its legal moves. *)
Lemma step_moves (ev : event) (st st' : pool) :
  step ev st st' →
  ∃ i old new,
    items st !! i = Some old ∧ items st' = <[i := new]> (items st)
    ∧ ∀ voice, voices !! i = Some voice → moves voice old new.
Proof.
  intros H. destruct H as [st i voice r Hw Hq Hv Hb|st i voice req Hw Hq Hv Hb
                          |st i voice o e Hv Hi Hr|st i voice o data Hv Hi Hr
                          |st i voice wo data r fs' Hv Hi Hs|st i r Hi Ha
                          |st i voice e Hw Hq Hv|st i e Hi Ha]; simpl.
  - apply first_queued_lookup in Hq. exists i, Queued, (Finished r).
    repeat split; try done. intros v Hv'. simplify_eq. unfold gs_begin in Hb.
    destruct (_ && _); inversion Hb. constructor.
  - apply first_queued_lookup in Hq. exists i, Queued, Posting.
    repeat split; try done. constructor.
  - exists i, Posting, (Finished (gs_except voice e)).
    repeat split; try done. intros v Hv'. simplify_eq. constructor.
  - exists i, Posting, (Writing data). repeat split; try done. constructor.
  - exists i, (Writing data), (Finished r). repeat split; try done.
    intros v Hv'. simplify_eq. unfold gs_store, write_bytes in Hs.
    destruct wo as [|e [n|]]; inversion Hs; constructor.
  - exists i, (Finished r), (Collected r). repeat split; try done. constructor.
  - apply first_queued_lookup in Hq. exists i, Queued, (Crashed e).
    repeat split; try done. constructor.
  - exists i, (Crashed e), (Reraised e). repeat split; try done. constructor.
Qed.

Lemma moves_weight (voice : string) (old new : phase) :
  moves voice old new → weight new < weight old.
Proof. destruct 1; simpl; lia. Qed.

(** The list of futures keeps its length. *)
Lemma step_length (ev : event) (st st' : pool) :
  step ev st st' → length (items st') = length (items st).
Proof.
  intros H. apply step_moves in H as (i & old & new & _ & -> & _).
  apply length_insert.
Qed.

(** Every event brings the run closer to its end: a schedule has at most
    four events per voice. *)
Lemma step_measure (ev : event) (st st' : pool) :
  length (items st) = length voices →
  step ev st st' → measure st' < measure st.
Proof.
  intros Hlen H. apply step_moves in H as (i & old & new & Hi & Hst & Hm).
  destruct (voices !! i) as [voice|] eqn:Hv.
  - specialize (Hm _ eq_refl). apply moves_weight in Hm.
    unfold measure. rewrite Hst.
    pose proof (sum_list_with_insert weight (items st) i new old Hi). lia.
  - apply lookup_ge_None in Hv. apply lookup_lt_Some in Hi. lia.
Qed.

Lemma run_app (evs1 evs2 : list event) (st : pool) :
  run (evs1 ++ evs2) st = st' ← run evs1 st; run evs2 st'.
Proof.
  revert st. induction evs1 as [|ev evs1 IH]; intros st; simpl; [done|].
  destruct (exec ev st); simpl; [apply IH | done].
Qed.

(** What every event preserves holds all along a run. *)
Lemma run_invariant (P : pool → Prop) :
  (∀ ev st st', P st → step ev st st' → P st') →
  ∀ evs st st', P st → run evs st = Some st' → P st'.
Proof.
  intros Hstep evs. induction evs as [|ev evs IH]; intros st st' HP; simpl.
  - by intros [= <-].
  - destruct (exec ev st) as [st1|] eqn:He; simpl; [|done].
    apply IH. eapply Hstep; [done|]. by apply exec_step.
Qed.

Lemma run_length (evs : list event) (st st' : pool) :
  run evs st = Some st' → length (items st') = length (items st).
Proof.
  intros H.
  apply (run_invariant (λ s, length (items s) = length (items st))) in H; try done.
  intros ev s s' Hs Hst. by rewrite (step_length _ _ _ Hst).
Qed.

(** *** Every run can be completed *)

Lemma forallb_false {A} (p : A → bool) (l : list A) :
  forallb p l = false → ∃ i x, l !! i = Some x ∧ p x = false.
Proof.
  induction l as [|a l IH]; simpl; [done|].
  destruct (p a) eqn:Ha; simpl.
  - intros H. destruct (IH H) as (i & x & Hi & Hx). by exists (S i), x.
  - intros _. by exists 0, a.
Qed.

Lemma lookup_voice (st : pool) (i : nat) (ph : phase) :
  length (items st) = length voices →
  items st !! i = Some ph → is_Some (voices !! i).
Proof.
  intros Hlen Hi. apply lookup_lt_is_Some. rewrite <- Hlen.
  by apply lookup_lt_Some in Hi.
Qed.

(** A running work item can always take its next step, whatever the
    environment answers. *)
Lemma running_can_step (st : pool) (i : nat) (ph : phase) :
  length (items st) = length voices →
  items st !! i = Some ph → is_running ph = true →
  (∀ o, is_Some (exec (EvRespond i o) st))
  ∨ (∀ wo, is_Some (exec (EvWrite i wo) st)).
Proof.
  intros Hlen Hi Hr. destruct (lookup_voice _ _ _ Hlen Hi) as [voice Hv].
  destruct ph as [| |data|r|r|e|e]; try done.
  - left. intros o. simpl. rewrite Hv, Hi. simpl. destruct (gs_response o); eauto.
  - right. intros wo. simpl. rewrite Hv, Hi. simpl.
    destruct (gs_store _ _ _ _ _); eauto.
Qed.

(** With a free worker the next queued work item starts, whether its test
    raises or not. *)
Lemma queued_can_start (st : pool) (i : nat) :
  length (items st) = length voices →
  (Z.of_nat (running st) < max_workers)%Z →
  items st !! i = Some Queued →
  is_Some (exec EvStart st) ∧ ∀ e, is_Some (exec (EvCrash e) st).
Proof.
  intros Hlen Hw Hi. simpl. rewrite bool_decide_eq_true_2 by done.
  destruct (first_queued (items st)) as [j|] eqn:Hj.
  - pose proof (first_queued_lookup _ _ Hj) as Hjq.
    destruct (lookup_voice _ _ _ Hlen Hjq) as [voice Hv].
    simpl. rewrite Hv. simpl. split; [|eauto]. destruct (gs_begin _ _ _ _); eauto.
  - apply first_queued_None in Hj. rewrite Forall_lookup in Hj.
    specialize (Hj _ _ Hi). simpl in Hj. congruence.
Qed.

Lemma running_lookup (st : pool) :
  running st ≠ 0 → ∃ j ph, items st !! j = Some ph ∧ is_running ph = true.
Proof.
  unfold running. intros Hrun.
  destruct (List.filter is_running (items st)) as [|ph l] eqn:Hf; [done|].
  assert (Hin : In ph (List.filter is_running (items st)))
    by (rewrite Hf; by left).
  apply filter_In in Hin as [Hin Hr].
  apply list_elem_of_In, list_elem_of_lookup in Hin as [j Hj]. eauto.
Qed.

Lemma reraised_None (l : list phase) :
  reraised l = None → main_alive l = true.
Proof.
  unfold main_alive. induction l as [|ph l IH]; simpl; [done|].
  destruct ph; simpl; try done; exact IH.
Qed.


(** The pool never comes to a halt before its end: while work is left, a
    work item can take its next step whatever the environment answers, or
    the loop of line 124 can take a future. *)
Lemma progress (st : pool) :
  (0 < max_workers)%Z →
  length (items st) = length voices →
  pool_end st = None →
  (∃ i, ∀ o, is_Some (exec (EvRespond i o) st))
  ∨ (∃ i, ∀ wo, is_Some (exec (EvWrite i wo) st))
  ∨ (is_Some (exec EvStart st) ∧ ∀ e, is_Some (exec (EvCrash e) st))
  ∨ (∃ i, is_Some (exec (EvCollect i) st)).
Proof.
  intros Hw Hlen Hend.
  destruct (decide (running st = 0)) as [Hrun|Hrun].
  2:{ destruct (running_lookup st Hrun) as (j & ph & Hj & Hr).
      destruct (running_can_step st j ph Hlen Hj Hr); eauto. }
  destruct (forallb is_settled (items st)) eqn:Hset.
  - (* every work item has settled: a future is left to take *)
    right. right. right. unfold pool_end in Hend.
    destruct (all_collected st) eqn:Hall; [done|].
    rewrite Hset in Hend.
    destruct (reraised (items st)) eqn:Hre; [done|].
    apply reraised_None in Hre.
    apply forallb_false in Hall as (i & ph & Hi & Hph).
    rewrite forallb_lookup in Hset. specialize (Hset _ _ Hi).
    exists i. simpl. rewrite Hre, Hi.
    destruct ph as [| |data|r|r|e|e]; try done; eauto.
    unfold main_alive in Hre. rewrite forallb_lookup in Hre.
    by specialize (Hre _ _ Hi).
  - (* a work item is waiting, and no worker is busy *)
    right. right. left.
    apply forallb_false in Hset as (i & ph & Hi & Hph).
    assert (ph = Queued) as ->.
    { destruct ph as [| |data|r|r|e|e]; try done.
      - exfalso. unfold running in Hrun.
        pose proof (length_filter_insert is_running (items st) i Queued Posting Hi) as H.
        simpl in H. lia.
      - exfalso. unfold running in Hrun.
        pose proof (length_filter_insert is_running (items st) i Queued (Writing data) Hi)
          as H.
        simpl in H. lia. }
    apply (queued_can_start st i Hlen); [lia | done].
Qed.

(** Termination: from any state of the pool some schedule brings the run
    to its end. *)
Lemma run_completes (st : pool) :
  (0 < max_workers)%Z →
  length (items st) = length voices →
  ∃ evs st', run evs st = Some st' ∧ is_Some (pool_end st').
Proof.
  intros Hw. remember (measure st) as n eqn:Hn. revert st Hn.
  induction n as [n IH] using lt_wf_ind. intros st -> Hlen.
  destruct (pool_end st) as [out|] eqn:Hend.
  - exists [], st. rewrite Hend. eauto.
  - assert (∃ ev st1, exec ev st = Some st1) as (ev & st1 & He).
    { destruct (progress st Hw Hlen Hend)
        as [[i H]|[[i H]|[[[st1 H] _]|[i [st1 H]]]]]; eauto.
      - destruct (H (Raises (RequestException "timed out"))); eauto.
      - destruct (H Written); eauto. }
    pose proof He as Hs. apply exec_step in Hs.
    destruct (IH (measure st1) (step_measure _ _ _ Hlen Hs) st1 eq_refl)
      as (evs & st' & Hr & Hc).
    { by rewrite (step_length _ _ _ Hs). }
    exists (ev :: evs), st'. simpl. rewrite He. done.
Qed.

(** A run in which no test raises can be brought to the end where every
    future is collected. *)
Lemma run_collects (st : pool) :
  (0 < max_workers)%Z →
  length (items st) = length voices →
  (∀ i ph, items st !! i = Some ph → result_of ph = None → is_settled ph = false) →
  ∃ evs st', run evs st = Some st' ∧ all_collected st' = true.
Proof.
  intros Hw. remember (measure st) as n eqn:Hn. revert st Hn.
  induction n as [n IH] using lt_wf_ind. intros st -> Hlen Hok.
  destruct (all_collected st) eqn:Hall.
  { by exists [], st. }
  assert (∃ ev st1, exec ev st = Some st1
                    ∧ ∀ i ph, items st1 !! i = Some ph → result_of ph = None →
                              is_settled ph = false) as (ev & st1 & He & Hok1).
  { assert (Halive : main_alive (items st) = true).
    { unfold main_alive. apply forallb_lookup. intros i ph Hi.
      specialize (Hok i ph Hi). by destruct ph; try done; specialize (Hok eq_refl). }
    destruct (decide (running st = 0)) as [Hrun|Hrun].
    2:{ destruct (running_lookup st Hrun) as (j & ph & Hj & Hr).
        destruct (lookup_voice _ _ _ Hlen Hj) as [voice Hv].
        destruct ph as [| |data|r|r|e|e]; try done.
        - exists (EvRespond j (Raises (RequestException "timed out"))). eexists.
          split; [simpl; rewrite Hv, Hj; reflexivity|].
          intros i ph Hi. simpl in Hi.
          apply list_lookup_insert_Some in Hi as [(-> & <- & _)|(_ & Hi)]; [done|eauto].
        - exists (EvWrite j Written). eexists.
          split; [simpl; rewrite Hv, Hj; reflexivity|].
          intros i ph Hi. simpl in Hi.
          apply list_lookup_insert_Some in Hi as [(-> & <- & _)|(_ & Hi)]; [done|eauto]. }
    apply forallb_false in Hall as (i & ph & Hi & Hph).
    destruct ph as [| |data|r|r|e|e]; try done.
    - destruct (queued_can_start st i Hlen) as [[st1 H1] _]; [lia|done|].
      exists EvStart, st1. split; [done|].
      apply exec_step in H1. inversion H1; subst; intros j ph Hj; simpl in Hj;
        (apply list_lookup_insert_Some in Hj as [(-> & <- & _)|(_ & Hj)];
         [done|eauto]).
    - exfalso. unfold running in Hrun.
      pose proof (length_filter_insert is_running (items st) i Queued Posting Hi) as H.
      simpl in H. lia.
    - exfalso. unfold running in Hrun.
      pose proof (length_filter_insert is_running (items st) i Queued (Writing data) Hi)
        as H.
      simpl in H. lia.
    - exists (EvCollect i). eexists.
      split; [simpl; rewrite Halive, Hi; reflexivity|].
      intros j ph Hj. simpl in Hj.
      apply list_lookup_insert_Some in Hj as [(-> & <- & _)|(_ & Hj)]; [done|eauto].
    - by specialize (Hok _ _ Hi eq_refl).
    - by specialize (Hok _ _ Hi eq_refl). }
  pose proof He as Hs. apply exec_step in Hs.
  destruct (IH (measure st1) (step_measure _ _ _ Hlen Hs) st1 eq_refl)
    as (evs & st' & Hr & Hc); [by rewrite (step_length _ _ _ Hs) | done |].
  exists (ev :: evs), st'. simpl. rewrite He. done.
Qed.

(** *** The tally *)

Lemma count_collected_insert (s : status) (l : list phase) (i : nat)
    (old new : phase) :
  l !! i = Some old →
  collected_as s old = false →
  count_collected s (<[i := new]> l)
  = count_collected s l + (if collected_as s new then 1 else 0).
Proof.
  intros Hi Hold. unfold count_collected.
  pose proof (length_filter_insert (collected_as s) l i new old Hi) as H.
  rewrite Hold in H. lia.
Qed.

Lemma step_tally (ev : event) (st st' : pool) :
  tally_matches st → step ev st st' → tally_matches st'.
Proof.
  unfold tally_matches. intros (H1 & H2 & H3) H.
  destruct H as [st i voice r Hw Hq Hv Hb|st i voice req Hw Hq Hv Hb
                |st i voice o e Hv Hi Hr|st i voice o data Hv Hi Hr
                |st i voice wo data r fs' Hv Hi Hs|st i r Hi Ha
                |st i voice e Hw Hq Hv|st i e Hi Ha]; simpl;
    try apply first_queued_lookup in Hq;
    try (rewrite !(count_collected_insert _ _ _ _ _ Hq) by done; simpl; lia);
    try (rewrite !(count_collected_insert _ _ _ _ _ Hi) by done; simpl; lia).
  rewrite !(count_collected_insert _ _ _ _ _ Hi) by done. simpl.
  destruct r; simpl; repeat case_bool_decide; try done; lia.
Qed.

Lemma count_collected_total (l : list phase) :
  forallb is_collected l = true →
  count_collected st_ok l + count_collected st_skipped l
  + count_collected st_error l = length l.
Proof.
  unfold count_collected. induction l as [|ph l IH]; simpl; [done|].
  destruct ph as [| | | |[]| |]; simpl; try done; intros H; specialize (IH H); lia.
Qed.

(** *** The results belong to their voices *)

Lemma gs_begin_voice (voice : string) (fs0 : FS) (r : sample_result) :
  gs_begin api_url voice output_dir fs0 = inl r →
  r = Skipped voice (output_path output_dir voice).
Proof. unfold gs_begin. destruct (_ && _); by intros [= <-]. Qed.

Lemma gs_store_voice (voice : string) (data : bytes) (wo : write_outcome)
    (fs0 fs' : FS) (r : sample_result) :
  gs_store voice output_dir data wo fs0 = (r, fs') → voice_of r = voice.
Proof.
  unfold gs_store, write_bytes. destruct wo as [|e [n|]]; by intros [= <- _].
Qed.

Lemma step_results_match (ev : event) (st st' : pool) :
  results_match st → step ev st st' → results_match st'.
Proof.
  intros Hinv H j ph r Hj Hph.
  destruct H as [st i voice r' Hw Hq Hv Hb|st i voice req Hw Hq Hv Hb
                |st i voice o e Hv Hi Hr|st i voice o data Hv Hi Hr
                |st i voice wo data r' fs' Hv Hi Hs|st i r' Hi Ha
                |st i voice e Hw Hq Hv|st i e Hi Ha]; simpl in Hj;
    apply list_lookup_insert_Some in Hj as [(-> & <- & _)|(Hne & Hj)];
    try (by eapply Hinv); simpl in Hph; simplify_eq.
  - apply gs_begin_voice in Hb as ->. done.
  - done.
  - by rewrite (gs_store_voice _ _ _ _ _ _ Hs).
Qed.

Lemma init_invariants (fs0 : FS) (sent0 : list request) :
  length (items (pool_init voices fs0 sent0)) = length voices
  ∧ tally_matches (pool_init voices fs0 sent0)
  ∧ results_match (pool_init voices fs0 sent0).
Proof.
  unfold pool_init, tally_matches, results_match, count_collected. simpl.
  rewrite length_replicate. split; [done|]. split.
  - assert (H : ∀ s n, length (List.filter (collected_as s) (replicate n Queued)) = 0)
      by (intros s n; induction n; simpl; done).
    by rewrite !H.
  - intros i ph r [-> _]%lookup_replicate. done.
Qed.

(** At the end of a run every voice has its result, and the counters
    count them. *)
Lemma run_final (evs : list event) (fs0 : FS) (sent0 : list request)
    (st : pool) :
  run evs (pool_init voices fs0 sent0) = Some st →
  all_collected st = true →
  ∃ rs, items st = Collected <$> rs
        ∧ voice_of <$> rs = voices
        ∧ total (results st) = length voices
        ∧ tally_matches st.
Proof.
  intros Hrun Hall.
  destruct (init_invariants fs0 sent0) as (Hlen0 & Ht0 & Hr0).
  pose proof (run_length _ _ _ Hrun) as Hlen. rewrite Hlen0 in Hlen.
  pose proof (run_invariant _ step_tally _ _ _ Ht0 Hrun) as Ht.
  pose proof (run_invariant _ step_results_match _ _ _ Hr0 Hrun) as Hr.
  exists (omap result_of (items st)).
  assert (Hitems : items st = Collected <$> omap result_of (items st)).
  { unfold all_collected in Hall. clear -Hall.
    induction (items st) as [|ph l IH]; simpl in *; [done|].
    apply andb_true_iff in Hall as [Hph Hl].
    destruct ph; try done. simpl. f_equal. by apply IH. }
  repeat split; try apply Ht; try done.
  - apply list_eq. intros i. rewrite list_lookup_fmap.
    destruct (omap result_of (items st) !! i) as [r|] eqn:Hi; simpl.
    + symmetry. eapply (Hr i (Collected r)); [|done].
      rewrite Hitems, list_lookup_fmap, Hi. done.
    + symmetry. apply lookup_ge_None. apply lookup_ge_None in Hi.
      rewrite <- Hlen. rewrite Hitems, length_fmap. done.
  - destruct Ht as (H1 & H2 & H3). unfold total. rewrite H1, H2, H3.
    rewrite count_collected_total by done. done.
Qed.
(** *** The workers *)

Lemma posting_le_running (l : list phase) :
  (length (List.filter is_posting l) ≤ length (List.filter is_running l))%nat.
Proof.
  induction l as [|ph l IH]; simpl; [done|]. destruct ph; simpl; lia.
Qed.

Lemma step_running (ev : event) (st st' : pool) :
  step ev st st' →
  (Z.of_nat (running st) ≤ max_workers)%Z →
  (Z.of_nat (running st') ≤ max_workers)%Z.
Proof.
  intros H Hle. unfold running in *.
  destruct H as [st i voice r Hw Hq Hv Hb|st i voice req Hw Hq Hv Hb
                |st i voice o e Hv Hi Hr|st i voice o data Hv Hi Hr
                |st i voice wo data r fs' Hv Hi Hs|st i r Hi Ha
                |st i voice e Hw Hq Hv|st i e Hi Ha]; simpl;
    try apply first_queued_lookup in Hq; unfold running in *;
    match goal with
    | H : items st !! i = Some ?old |- context [<[i := ?new]> _] =>
        pose proof (length_filter_insert is_running (items st) i new old H) as Hc;
        simpl in Hc; lia
    end.
Qed.

Lemma run_running (evs : list event) (fs0 : FS) (sent0 : list request)
    (st : pool) :
  (0 ≤ max_workers)%Z →
  run evs (pool_init voices fs0 sent0) = Some st →
  (Z.of_nat (running st) ≤ max_workers)%Z.
Proof.
  intros Hw Hrun.
  apply (run_invariant (λ s, (Z.of_nat (running s) ≤ max_workers)%Z)) in Hrun;
    [done| |].
  - intros ev s s' Hs Hst. by eapply step_running.
  - unfold running, pool_init. simpl.
    assert (H : ∀ n, List.filter is_running (replicate n Queued) = [])
      by (intros n; induction n; simpl; done).
    rewrite H. simpl. lia.
Qed.
(** *** What an event changes *)

(** Case analysis on an event; in every case [Hi] says what phase the work
    item [i] was in. *)
Ltac step_cases H :=
  destruct H as [st i voice r Hw Hq Hv Hb|st i voice req Hw Hq Hv Hb
                |st i voice o e Hv Hi Hr|st i voice o data Hv Hi Hr
                |st i voice wo data r fs' Hv Hi Hs|st i r Hi Ha
                |st i voice e Hw Hq Hv|st i e Hi Ha];
  [pose proof (first_queued_lookup _ _ Hq) as Hi
  |pose proof (first_queued_lookup _ _ Hq) as Hi| | | |
  |pose proof (first_queued_lookup _ _ Hq) as Hi| ].

Lemma write_bytes_other (p q : Path) (data : bytes) (wo : write_outcome)
    (fs0 : FS) :
  p ≠ q → (write_bytes q data wo fs0).2 !! p = fs0 !! p.
Proof.
  intros Hne. destruct wo as [|e [n|]]; simpl; try done;
    by rewrite lookup_insert_ne.
Qed.

Lemma gs_store_cases (voice : string) (data : bytes) (wo : write_outcome)
    (fs0 fs' : FS) (r : sample_result) :
  gs_store voice output_dir data wo fs0 = (r, fs') →
  fs' = (write_bytes (output_path output_dir voice) data wo fs0).2
  ∧ ((wo = Written ∧ r = Ok voice (output_path output_dir voice) (length data)
      ∧ fs' = <[output_path output_dir voice := data]> fs0)
     ∨ (∃ e reached, wo = WriteFails e reached ∧ r = Error voice (str e))).
Proof.
  unfold gs_store, write_bytes. destruct wo as [|e [n|]]; intros [= <- <-];
    (split; [done|]); eauto.
Qed.

(** Only a write changes the filesystem, and only at the output path of the
    work item that writes. *)
Lemma step_fs (ev : event) (st st' : pool) (p : Path) :
  step ev st st' →
  (∀ i voice data, voices !! i = Some voice →
                   items st !! i = Some (Writing data) →
                   output_path output_dir voice ≠ p) →
  fs st' !! p = fs st !! p.
Proof.
  intros H Hp. step_cases H; simpl; try done.
  apply gs_store_cases in Hs as [-> _].
  apply write_bytes_other. intros ->. by eapply Hp.
Qed.

(** A result, once there, stays. *)
Lemma step_result_stays (ev : event) (st st' : pool) (j : nat) (ph : phase)
    (res : sample_result) :
  step ev st st' →
  items st !! j = Some ph → result_of ph = Some res →
  ∃ ph', items st' !! j = Some ph' ∧ result_of ph' = Some res.
Proof.
  intros H Hj Hres. step_cases H; simpl;
    (destruct (decide (i = j)) as [->|Hne];
     [rewrite Hi in Hj; injection Hj as <-; try done
     |exists ph; split; [by rewrite list_lookup_insert_ne | done]]).
  injection Hres as ->. exists (Collected res). split; [|done].
  apply list_lookup_insert_eq. by apply lookup_lt_Some in Hi.
Qed.

Lemma step_sent (ev : event) (st st' : pool) :
  sent_matches st → step ev st st' → sent_matches st'.
Proof.
  unfold sent_matches. intros Hinv H.
  step_cases H; simpl;
    match goal with
    | Hk : items _ !! ?k = Some ?old |- context [<[?k := ?new]> ?l] =>
        pose proof (length_filter_insert has_posted l k new old Hk) as Hc;
        simpl in Hc
    end; try lia.
  - apply gs_begin_voice in Hb as ->. simpl in Hc. lia.
  - unfold gs_begin in Hb. destruct (_ && _); [done|]. injection Hb as <-.
    simpl. lia.
  - apply gs_store_cases in Hs as [_ [(_ & -> & _)|(e & n & _ & ->)]];
      simpl in Hc; lia.
Qed.

(** *** A run on a cleared directory skips nothing *)

Section Fresh.
Hypothesis voices_distinct : NoDup voices.
Hypothesis voices_plain : Forall plain_voice voices.

Lemma paths_distinct (i j : nat) (vi vj : string) :
  voices !! i = Some vi → voices !! j = Some vj → i ≠ j →
  output_path output_dir vi ≠ output_path output_dir vj.
Proof.
  intros Hi Hj Hne Heq. apply output_path_inj in Heq.
  - subst vj. apply Hne. by eapply NoDup_lookup.
  - rewrite Forall_lookup in voices_plain. by eapply voices_plain.
  - rewrite Forall_lookup in voices_plain. by eapply voices_plain.
Qed.

Lemma step_fresh (ev : event) (st st' : pool) :
  fresh st → step ev st st' → fresh st'.
Proof.
  intros [Hfile Hres] H. split.
  - intros j vj Hvj Hj.
    assert (Hjq : items st !! j = Some Queued).
    { apply step_moves in H as (i & old & new & Hi & Hst & Hm).
      rewrite Hst in Hj.
      apply list_lookup_insert_Some in Hj as [(-> & -> & _)|[_ ?]]; [|done].
      destruct (voices !! j) as [v|] eqn:Hv; [|done].
      specialize (Hm _ eq_refl). inversion Hm. }
    rewrite (step_fs _ _ _ _ H); [by eapply Hfile|].
    intros i vi data Hvi Hi. apply paths_distinct with (i := i) (j := j); try done.
    intros ->. congruence.
  - intros j ph res Hj Hph. step_cases H; simpl in Hj;
      apply list_lookup_insert_Some in Hj as [(-> & <- & _)|(Hne & Hj)];
      try exact (Hres _ _ _ Hj Hph); simpl in Hph; simplify_eq.
    + pose proof (Hfile _ _ Hv Hi) as Hnone.
      rewrite gs_begin_post in Hb; [done|]. intros (d & Hd & _). congruence.
    + done.
    + apply gs_store_cases in Hs as [_ [(_ & -> & _)|(e & n & _ & ->)]]; done.
    + exact (Hres _ (Finished res) _ Hi eq_refl).
Qed.
End Fresh.
(** *** What a run of generated samples leaves on disk *)

Lemma step_spoiled (ev : event) (st st' : pool) (p : Path) :
  step ev st st' → spoiled p st → spoiled p st'.
Proof.
  intros H (j & vj & ph & res & Hvj & Hp & Hj & Hph & Hbad).
  destruct (step_result_stays _ _ _ _ _ _ H Hj Hph) as (ph' & Hj' & Hph').
  by exists j, vj, ph', res.
Qed.

Lemma not_generated_skipped (voice : string) (p : Path) :
  ¬ generated_nonempty (Skipped voice p).
Proof. by intros (v & q & n & ? & _). Qed.

Lemma not_generated_error (voice msg : string) :
  ¬ generated_nonempty (Error voice msg).
Proof. by intros (v & q & n & ? & _). Qed.

Lemma generated_ok_size (voice : string) (p : Path) (n : nat) :
  generated_nonempty (Ok voice p n) ↔ 0 < n.
Proof.
  split; [by intros (v & q & m & [= _ _ ->] & ?) | intros ?; by exists voice, p, n].
Qed.

Lemma step_written_ok (ev : event) (st st' : pool) :
  written_ok st → step ev st st' → written_ok st'.
Proof.
  intros Hinv H j vj ph res Hvj Hj Hph Hgood.
  pose proof (step_spoiled _ _ _ (output_path output_dir vj) H) as Hsp.
  step_cases H; simpl in *;
    apply list_lookup_insert_Some in Hj as [(-> & <- & _)|(Hne & Hj)];
    simpl in Hph; simplify_eq.
  - apply gs_begin_voice in Hb as ->. by apply not_generated_skipped in Hgood.
  - destruct (Hinv _ _ _ _ Hvj Hj Hph Hgood); eauto.
  - destruct (Hinv _ _ _ _ Hvj Hj Hph Hgood); eauto.
  - by apply not_generated_error in Hgood.
  - destruct (Hinv _ _ _ _ Hvj Hj Hph Hgood); eauto.
  - destruct (Hinv _ _ _ _ Hvj Hj Hph Hgood); eauto.
  - (* the work item that writes *)
    apply gs_store_cases in Hs as [_ [(_ & -> & ->)|(e & n & _ & ->)]].
    + apply generated_ok_size in Hgood. left. exists data.
      split; [apply lookup_insert_eq|]. intros ->. simpl in Hgood. lia.
    + by apply not_generated_error in Hgood.
  - (* another work item, while [i] writes *)
    assert (Hnew : items (mkPool fs' (sent st) (<[i := Finished r]> (items st))
                            (results st)) !! i = Some (Finished r)).
    { simpl. apply list_lookup_insert_eq. by apply lookup_lt_Some in Hi. }
    destruct (Hinv _ _ _ _ Hvj Hj Hph Hgood) as [(d & Hd & Hdne)|Hspo]; [|eauto].
    destruct (decide (output_path output_dir voice = output_path output_dir vj))
      as [Heq|Hneq].
    + apply gs_store_cases in Hs as [_ [(_ & -> & ->)|(e & n & _ & ->)]].
      * destruct data as [|b data].
        -- right. exists i, voice, (Finished (Ok voice (output_path output_dir voice) 0)),
             (Ok voice (output_path output_dir voice) 0).
           repeat split; try done. intros Hg%generated_ok_size. lia.
        -- left. exists (b :: data). rewrite <- Heq.
           split; [apply lookup_insert_eq | done].
      * right. exists i, voice, (Finished (Error voice (str e))), (Error voice (str e)).
        repeat split; try done. apply not_generated_error.
    + left. exists d. split; [|done].
      apply gs_store_cases in Hs as [-> _]. simpl.
      rewrite write_bytes_other by done. done.
  - destruct (Hinv _ _ _ _ Hvj Hi eq_refl Hgood); eauto.
  - destruct (Hinv _ _ _ _ Hvj Hj Hph Hgood); eauto.
  - destruct (Hinv _ _ _ _ Hvj Hj Hph Hgood); eauto.
  - destruct (Hinv _ _ _ _ Hvj Hj Hph Hgood); eauto.
Qed.

Lemma init_written_ok (fs0 : FS) (sent0 : list request) :
  written_ok (pool_init voices fs0 sent0).
Proof. intros i voice ph r _ [-> _]%lookup_replicate. done. Qed.

(** After a run in which every voice got a non-empty generated sample,
    every voice has a non-empty file. *)
Lemma run_generated_files (evs : list event) (fs0 : FS) (sent0 : list request)
    (st : pool) :
  run evs (pool_init voices fs0 sent0) = Some st →
  all_collected st = true →
  Forall generated_nonempty (omap result_of (items st)) →
  ∀ voice, voice ∈ voices → nonempty_file (fs st) (output_path output_dir voice).
Proof.
  intros Hrun Hall Hgood voice Hin.
  pose proof (run_invariant _ step_written_ok _ _ _ (init_written_ok fs0 sent0) Hrun)
    as Hinv.
  destruct (run_final _ _ _ _ Hrun Hall) as (rs & Hi & Hv & _).
  assert (Hrs : omap result_of (items st) = rs).
  { rewrite Hi. apply omap_result_collected. }
  rewrite Hrs in Hgood. rewrite Forall_lookup in Hgood.
  apply list_elem_of_lookup in Hin as [i Hvi].
  assert (∃ r, rs !! i = Some r) as [r Hr].
  { apply lookup_lt_is_Some. rewrite <- (length_fmap voice_of), Hv.
    by apply lookup_lt_Some in Hvi. }
  destruct (Hinv i voice (Collected r) r) as [Hfile|Hspo]; try done.
  - by rewrite Hi, list_lookup_fmap, Hr.
  - by eapply Hgood.
  - destruct Hspo as (j & vj & ph & res & Hvj & _ & Hj & Hph & Hbad).
    exfalso. apply Hbad. rewrite Hi, list_lookup_fmap in Hj.
    destruct (rs !! j) as [r'|] eqn:Hr'; simpl in Hj; [|done].
    injection Hj as <-. simpl in Hph. injection Hph as <-. by eapply Hgood.
Qed.

(** *** A run on a directory where every sample is present *)

Lemma step_all_skipping (fs1 : FS) (sent0 : list request) (ev : event)
    (st st' : pool) :
  (∀ voice, voice ∈ voices → nonempty_file fs1 (output_path output_dir voice)) →
  all_skipping fs1 sent0 st → step ev st st' → all_skipping fs1 sent0 st'.
Proof.
  intros Hfiles (Hfs & Hsent & Hitems) H.
  step_cases H; simpl;
    try (by destruct (Hitems _ _ Hi) as [? _]).
  - split; [done|]. split; [done|]. intros j ph Hj.
    apply list_lookup_insert_Some in Hj as [(-> & <- & _)|(Hne & Hj)];
      [|by apply (Hitems _ _ Hj)].
    split; [done|]. apply gs_begin_voice in Hb as ->. by intros ? [= <-].
  - rewrite Hfs in Hb. rewrite gs_begin_skip in Hb; [done|].
    apply Hfiles. apply list_elem_of_lookup. eauto.
  - destruct (Hitems _ _ Hi) as [_ Hres].
    split; [done|]. split; [done|]. intros j ph Hj.
    apply list_lookup_insert_Some in Hj as [(-> & <- & _)|(Hne & Hj)];
      [|by apply (Hitems _ _ Hj)].
    split; [done|]. intros ? [= <-]. by apply Hres.
  - split; [done|]. split; [done|]. intros j ph Hj.
    apply list_lookup_insert_Some in Hj as [(-> & <- & _)|(Hne & Hj)];
      [done | by apply (Hitems _ _ Hj)].
  - split; [done|]. split; [done|]. intros j ph Hj.
    apply list_lookup_insert_Some in Hj as [(-> & <- & _)|(Hne & Hj)];
      [done | by apply (Hitems _ _ Hj)].
Qed.

Lemma init_all_skipping (fs1 : FS) (sent0 : list request) :
  all_skipping fs1 sent0 (pool_init voices fs1 sent0).
Proof.
  split; [done|]. split; [done|]. by intros i ph [-> _]%lookup_replicate.
Qed.
End PoolFacts.

(** Case analysis on an event, outside the section of the pool. *)
Ltac on_step H :=
  destruct H as [st i voice r Hw Hq Hv Hb|st i voice req Hw Hq Hv Hb
                |st i voice o e Hv Hi Hr|st i voice o data Hv Hi Hr
                |st i voice wo data r fs' Hv Hi Hs|st i r Hi Ha
                |st i voice e Hw Hq Hv|st i e Hi Ha];
  [pose proof (first_queued_lookup _ _ Hq) as Hi
  |pose proof (first_queued_lookup _ _ Hq) as Hi| | | |
  |pose proof (first_queued_lookup _ _ Hq) as Hi| ].

(** What every event of a schedule preserves holds at its end. *)
Lemma run_invariant_in (api_url : string) (voices : list string)
    (output_dir : Path) (max_workers : Z) (P : pool → Prop) (evs : list event) :
  (∀ ev st st', ev ∈ evs → P st →
                step api_url voices output_dir max_workers ev st st' → P st') →
  ∀ st st', P st → run api_url voices output_dir max_workers evs st = Some st' →
            P st'.
Proof.
  induction evs as [|ev evs IH]; intros Hstep st st' HP; simpl.
  - by intros [= <-].
  - destruct (exec _ _ _ _ ev st) as [st1|] eqn:He; simpl; [|done].
    apply IH.
    + intros ev' s s' Hin. apply Hstep. by apply list_elem_of_further.
    + eapply Hstep; [apply list_elem_of_here | done | by apply exec_step].
Qed.

(** * The properties of a batch run *)

Lemma main_setup_pool (script_file : Path) (args : Args) (go : http_outcome)
    (fs0 : FS) (voices : list string) (st0 : pool) :
  main_setup script_file args go fs0 = inr (voices, st0) →
  get_voices (arg_api_url args) go = inr (Voices voices)
  ∧ (0 < batch_size args)%Z
  ∧ st0 = pool_init voices
            (if force args then clear_samples (OUTPUT_DIR script_file) fs0 else fs0)
            [GET (voices_url (arg_api_url args))].
Proof.
  unfold main_setup, ThreadPoolExecutor.
  destruct (get_voices _ _) as [e|[vs|ty]]; [done| |done].
  case_bool_decide; [done|]. intros [= <- <-]. repeat split; [lia].
Qed.

Lemma main_returned (script_file : Path) (args : Args) (go : http_outcome)
    (evs : list event) (fs0 : FS) (st : pool) :
  main script_file args go evs fs0 = Some (Returned st) →
  main_reaches script_file args go evs fs0 st ∧ all_collected st = true.
Proof.
  unfold main, main_reaches.
  destruct (main_setup _ _ _ _) as [o|[voices st0]] eqn:Hs.
  - intros [= ->]. unfold main_setup, ThreadPoolExecutor in Hs.
    destruct (get_voices _ _) as [e|[vs|ty]]; [done| |done]. by case_bool_decide.
  - destruct (run _ _ _ _ _ _) as [st1|] eqn:Hr; simpl; [|done].
    destruct (all_collected st1) eqn:Hc; [|done]. intros [= ->]. eauto.
Qed.

(** A run that ends with status 0 is a run in which [main] returned. *)
Lemma main_exit_0 (script_file : Path) (args : Args) (go : http_outcome)
    (evs : list event) (fs0 : FS) :
  exit_code <$> main script_file args go evs fs0 = Some 0%Z →
  ∃ st, main script_file args go evs fs0 = Some (Returned st).
Proof.
  unfold main, main_setup.
  destruct (get_voices _ _) as [e|[vs|ty]]; [done| |done].
  destruct (ThreadPoolExecutor _); [done|].
  destruct (run _ _ _ _ _ _) as [st|]; simpl; [|done].
  destruct (all_collected st); [|done]. eauto.
Qed.

Lemma fs_after_returned (script_file : Path) (args : Args) (go : http_outcome)
    (evs : list event) (fs0 : FS) (st : pool) :
  main script_file args go evs fs0 = Some (Returned st) →
  fs_after script_file args go evs fs0 = fs st.
Proof. intros H. unfold fs_after. by rewrite H. Qed.

Lemma main_reaches_pool (script_file : Path) (args : Args) (go : http_outcome)
    (evs : list event) (fs0 : FS) (st : pool) :
  main_reaches script_file args go evs fs0 st →
  ∃ voices,
    get_voices (arg_api_url args) go = inr (Voices voices)
    ∧ (0 < batch_size args)%Z
    ∧ length (items st) = length voices
    ∧ run (arg_api_url args) voices (OUTPUT_DIR script_file) (batch_size args) evs
        (pool_init voices
           (if force args then clear_samples (OUTPUT_DIR script_file) fs0 else fs0)
           [GET (voices_url (arg_api_url args))]) = Some st.
Proof.
  intros (voices & st0 & Hs & Hrun).
  apply main_setup_pool in Hs as (Hg & Hw & ->).
  exists voices. repeat split; try done.
  rewrite (run_length _ _ _ _ _ _ _ Hrun). simpl. apply length_replicate.
Qed.

(** The states a schedule reaches, seen through an observation. *)
Lemma main_reaches_observed {A} (f : pool → A) (script_file : Path) (args : Args)
    (go : http_outcome) (evs : list event) (fs0 : FS) (voices : list string)
    (a : A) :
  get_voices (arg_api_url args) go = inr (Voices voices) →
  (0 < batch_size args)%Z →
  f <$> run (arg_api_url args) voices (OUTPUT_DIR script_file) (batch_size args) evs
          (pool_init voices
             (if force args then clear_samples (OUTPUT_DIR script_file) fs0 else fs0)
             [GET (voices_url (arg_api_url args))]) = Some a →
  ∃ st, main_reaches script_file args go evs fs0 st ∧ f st = a.
Proof.
  intros Hg Hw Hrun.
  destruct (run _ _ _ _ _ _) as [st|] eqn:Hr; simpl in Hrun; [|done].
  injection Hrun as <-. exists st. split; [|done].
  eexists _, _. split; [|exact Hr].
  unfold main_setup, ThreadPoolExecutor. rewrite Hg.
  by rewrite bool_decide_eq_false_2 by lia.
Qed.

(** C1. When the run completes, the three counters add up to the number of
    voice identifiers the service listed, and every listed voice has exactly
    one result, in its own slot, counted once under its status. *)
Theorem tally_correctness (script_file : Path) (args : Args) (go : http_outcome)
    (evs : list event) (fs0 : FS) (voices : list string) (st : pool) :
  get_voices (arg_api_url args) go = inr (Voices voices) →
  main script_file args go evs fs0 = Some (Returned st) →
  n_ok (results st) + n_skipped (results st) + n_error (results st)
  = length voices
  ∧ ∃ rs, items st = Collected <$> rs
          ∧ voice_of <$> rs = voices
          ∧ n_ok (results st) = count_status st_ok rs
          ∧ n_skipped (results st) = count_status st_skipped rs
          ∧ n_error (results st) = count_status st_error rs.
Proof.
  intros Hg [(vs & st0 & Hs & Hrun) Hall]%main_returned.
  apply main_setup_pool in Hs as (Hg' & _ & ->).
  rewrite Hg in Hg'. injection Hg' as <-.
  destruct (run_final _ _ _ _ _ _ _ _ Hrun Hall) as (rs & Hi & Hv & Ht & H1 & H2 & H3).
  split; [exact Ht|]. exists rs. repeat split; try done.
  - by rewrite H1, Hi, count_collected_fmap.
  - by rewrite H2, Hi, count_collected_fmap.
  - by rewrite H3, Hi, count_collected_fmap.
Qed.

Lemma tally_correctness_witness :
  ∃ st,
    main script0 default_args (voices_reply two_voices) mixed_schedule ∅
    = Some (Returned st)
    ∧ n_ok (results st) + n_skipped (results st) + n_error (results st) = 2.
Proof.
  destruct (main_exit_0 script0 default_args (voices_reply two_voices)
              mixed_schedule ∅) as [st Hst]; [vm_compute; reflexivity|].
  exists st. split; [exact Hst|].
  exact (proj1 (tally_correctness script0 default_args (voices_reply two_voices)
                  mixed_schedule ∅ two_voices st eq_refl Hst)).
Defined.

(** C2. When the output file of a voice exists and is not empty,
    [generate_sample] returns [skipped] at once: no request is sent and the
    filesystem is the one it was given.  [generate_sample] does not receive
    the force flag, so this holds whether or not it was set. *)
Theorem skip_existing (api_url voice : string) (output_dir : Path)
    (po : http_outcome) (wo : write_outcome) (fs0 : FS) :
  nonempty_file fs0 (output_path output_dir voice) →
  generate_sample api_url voice output_dir po wo fs0
  = (Skipped voice (output_path output_dir voice), fs0, []).
Proof.
  intros H. unfold generate_sample. by rewrite (gs_begin_skip _ _ _ _ H).
Qed.

Lemma skip_existing_witness :
  nonempty_file {[ output_path (OUTPUT_DIR script0) "af_bella" := audio ]}
    (output_path (OUTPUT_DIR script0) "af_bella")
  ∧ generate_sample "http://localhost:8880" "af_bella" (OUTPUT_DIR script0)
      (speech_reply audio) Written
      {[ output_path (OUTPUT_DIR script0) "af_bella" := audio ]}
    = (Skipped "af_bella" (output_path (OUTPUT_DIR script0) "af_bella"),
       {[ output_path (OUTPUT_DIR script0) "af_bella" := audio ]}, []).
Proof.
  assert (H : nonempty_file {[ output_path (OUTPUT_DIR script0) "af_bella" := audio ]}
                (output_path (OUTPUT_DIR script0) "af_bella")).
  { exists audio. split; [apply lookup_singleton_eq | discriminate]. }
  split; [exact H|]. apply (skip_existing _ _ _ _ _ _ H).
Defined.

(** C9. In every state of a run the number of synthesis requests in flight
    is at most the batch size: a work item is started only while fewer than
    [max_workers] are running, and only running items have a request in
    flight.  (With a batch size of 0 or less no pool exists and no request
    is ever sent.) *)
Theorem concurrency_bound (script_file : Path) (args : Args) (go : http_outcome)
    (evs : list event) (fs0 : FS) (st : pool) :
  main_reaches script_file args go evs fs0 st →
  (Z.of_nat (in_flight st) ≤ batch_size args)%Z.
Proof.
  intros (voices & st0 & Hs & Hrun).
  apply main_setup_pool in Hs as (_ & Hw & ->).
  apply run_running in Hrun; [|lia].
  pose proof (posting_le_running (items st)). unfold in_flight, running in *. lia.
Qed.

Lemma concurrency_bound_witness :
  ∃ st,
    main_reaches script0 (mkArgs "http://localhost:8880" 2 false)
      (voices_reply ["af_bella"; "am_adam"; "bf_emma"]) [EvStart; EvStart] ∅ st
    ∧ in_flight st = 2
    ∧ (Z.of_nat (in_flight st) ≤ 2)%Z.
Proof.
  destruct (main_reaches_observed in_flight script0
              (mkArgs "http://localhost:8880" 2 false)
              (voices_reply ["af_bella"; "am_adam"; "bf_emma"]) [EvStart; EvStart] ∅
              ["af_bella"; "am_adam"; "bf_emma"] 2) as (st & Hr & Hn).
  - reflexivity.
  - simpl; lia.
  - vm_compute; reflexivity.
  - exists st. split; [exact Hr|]. split; [exact Hn|].
    exact (concurrency_bound _ _ _ _ _ _ Hr).
Defined.

(** C10. The cleanup done for [--force] removes nothing but the direct
    children of the output directory whose name matches [*.mp3]: every other
    path, inside the directory or outside it, holds after the cleanup what
    it held before, and so it does when the pool starts. *)
Theorem force_cleanup_frame (script_file : Path) (args : Args)
    (go : http_outcome) (fs0 : FS) (p : Path) :
  is_mp3_child (OUTPUT_DIR script_file) p = false →
  clear_samples (OUTPUT_DIR script_file) fs0 !! p = fs0 !! p
  ∧ ∀ voices st0, main_setup script_file args go fs0 = inr (voices, st0) →
                  fs st0 !! p = fs0 !! p.
Proof.
  intros H. split; [by rewrite clear_samples_lookup, H|].
  intros voices st0 (_ & _ & ->)%main_setup_pool. simpl.
  destruct (force args); [by rewrite clear_samples_lookup, H | done].
Qed.

Lemma force_cleanup_frame_witness :
  is_mp3_child (OUTPUT_DIR script0) (OUTPUT_DIR script0 // "notes.txt") = false
  ∧ clear_samples (OUTPUT_DIR script0) mixed_fs !! (OUTPUT_DIR script0 // "notes.txt")
    = Some audio
  ∧ clear_samples (OUTPUT_DIR script0) mixed_fs
      !! output_path (OUTPUT_DIR script0) "af_bella" = None.
Proof.
  split; [vm_compute; reflexivity|]. split; [|vm_compute; reflexivity].
  rewrite (proj1 (force_cleanup_frame script0 force_args (voices_reply two_voices)
                    mixed_fs (OUTPUT_DIR script0 // "notes.txt") eq_refl)).
  vm_compute; reflexivity.
Defined.

(** What [is_mp3_child] recognises: the direct children of the directory
    whose name ends in ".mp3". *)
Lemma ends_with_spec (suffix s : string) :
  ends_with suffix s = true ↔ ∃ v, s = v ++ suffix.
Proof.
  split.
  - induction s as [|c s IH]; rewrite ends_with_unfold.
    + destruct (String.eqb_spec "" suffix) as [<-|]; [by exists "" | done].
    + destruct (String.eqb_spec (String c s) suffix) as [<-|]; [by exists ""|].
      intros [v ->]%IH. by exists (String c v).
  - intros [v ->]. apply ends_with_app.
Qed.

Lemma is_mp3_child_spec (dir p : Path) :
  is_mp3_child dir p = true
  ↔ ∃ stem, p = mkPath (root dir) (parts dir ++ [stem ++ ".mp3"]).
Proof.
  unfold is_mp3_child. destruct p as [r ps]. simpl. split.
  - destruct (List.rev ps) as [|name rdir] eqn:Hrev; [done|].
    intros [[Hr Hd]%andb_true_iff [stem ->]%ends_with_spec]%andb_true_iff.
    apply bool_decide_eq_true in Hr, Hd. exists stem. subst r. f_equal.
    rewrite <- Hd, <- (rev_involutive ps), Hrev. done.
  - intros [stem [= -> ->]]. rewrite rev_app_distr. simpl.
    rewrite rev_involutive, ends_with_app. by rewrite !bool_decide_eq_true_2.
Qed.

(** C7, as the code has it.  With [--force] every direct child [*.mp3] of
    the output directory is removed before the pool is made; when the voice
    identifiers are distinct and contain no "/", a [generate_sample] started
    on the cleared directory sends its request, no work item of the run is
    skipped and one synthesis request is sent per voice. *)
Theorem force_resynthesizes (script_file : Path) (args : Args)
    (go : http_outcome) (evs : list event) (fs0 : FS) (voices : list string)
    (st : pool) :
  force args = true →
  get_voices (arg_api_url args) go = inr (Voices voices) →
  NoDup voices → Forall plain_voice voices →
  main script_file args go evs fs0 = Some (Returned st) →
  (∀ p, is_mp3_child (OUTPUT_DIR script_file) p = true →
        clear_samples (OUTPUT_DIR script_file) fs0 !! p = None)
  ∧ (∀ voice po wo, voice ∈ voices →
       ∃ r fs',
         generate_sample (arg_api_url args) voice (OUTPUT_DIR script_file) po wo
           (clear_samples (OUTPUT_DIR script_file) fs0)
         = (r, fs', [POST (speech_url (arg_api_url args)) (payload voice)]))
  ∧ Forall (λ r, status_of r ≠ st_skipped) (out_results (Returned st))
  ∧ length (posts (sent st)) = length voices.
Proof.
  intros Hforce Hg Hnd Hplain [(vs & st0 & Hs & Hrun) Hall]%main_returned.
  apply main_setup_pool in Hs as (Hg' & Hw & ->).
  rewrite Hg in Hg'. injection Hg' as <-. rewrite Hforce in Hrun.
  set (dir := OUTPUT_DIR script_file) in *.
  set (fs1 := clear_samples dir fs0) in *.
  assert (Hcleared : ∀ voice, voice ∈ voices → fs1 !! output_path dir voice = None).
  { intros voice Hin. unfold fs1. rewrite clear_samples_lookup.
    rewrite is_mp3_child_output_path; [done|].
    rewrite Forall_forall in Hplain. by apply Hplain. }
  assert (Hfresh : fresh voices dir st).
  { eapply (run_invariant _ _ _ _ _ (step_fresh _ _ _ _ Hnd Hplain)); [|exact Hrun].
    split.
    - intros i voice Hv _. simpl. apply Hcleared, list_elem_of_lookup. eauto.
    - intros i ph r [-> _]%lookup_replicate. done. }
  assert (Hsent : sent_matches st).
  { eapply (run_invariant _ _ _ _ _ (step_sent _ _ _ _)); [|exact Hrun].
    unfold sent_matches, pool_init. simpl.
    assert (H : ∀ n, List.filter has_posted (replicate n Queued) = [])
      by (intros n; induction n; simpl; done).
    by rewrite H. }
  destruct (run_final _ _ _ _ _ _ _ _ Hrun Hall) as (rs & Hi & Hv & _).
  assert (Hns : Forall (λ r, status_of r ≠ st_skipped) rs).
  { apply Forall_lookup. intros i r Hr. apply (proj2 Hfresh i (Collected r) r); [|done].
    by rewrite Hi, list_lookup_fmap, Hr. }
  split; [|split; [|split]].
  - intros p Hp. unfold fs1. by rewrite clear_samples_lookup, Hp.
  - intros voice po wo Hin. unfold generate_sample.
    rewrite gs_begin_post.
    + destruct (gs_response po); [eauto|].
      destruct (gs_store _ _ _ _ _); eauto.
    + intros (d & Hd & _). rewrite (Hcleared _ Hin) in Hd. done.
  - simpl. by rewrite Hi, omap_result_collected.
  - rewrite Hsent, Hi. rewrite <- Hv, length_fmap. clear -Hns.
    induction Hns as [|r rs Hr _ IH]; simpl; [done|].
    rewrite bool_decide_eq_false_2 by done. simpl. f_equal. apply IH.
Qed.

Lemma two_voices_distinct : NoDup two_voices.
Proof. apply (bool_decide_unpack _). vm_compute. exact I. Qed.

Lemma two_voices_plain : Forall plain_voice two_voices.
Proof. repeat constructor. Qed.

Lemma force_resynthesizes_witness :
  ∃ st,
    main script0 force_args (voices_reply two_voices) mixed_schedule mixed_fs
    = Some (Returned st)
    ∧ Forall (λ r, status_of r ≠ st_skipped) (out_results (Returned st))
    ∧ length (posts (sent st)) = 2.
Proof.
  destruct (main_exit_0 script0 force_args (voices_reply two_voices)
              mixed_schedule mixed_fs) as [st Hst]; [vm_compute; reflexivity|].
  exists st. split; [exact Hst|].
  exact (proj2 (proj2 (force_resynthesizes script0 force_args
                         (voices_reply two_voices) mixed_schedule mixed_fs
                         two_voices st eq_refl eq_refl two_voices_distinct
                         two_voices_plain Hst))).
Defined.

(** C7 as stated fails: the output path of a voice with a "/" in its name
    lies in a sub-directory, which the non-recursive [glob("*.mp3")] does
    not visit.  With [--force] the sample is still there, the work item is
    skipped and no synthesis request is sent. *)
Lemma force_resynthesizes_counterexample :
  force force_args = true
  ∧ mixed_fs !! output_path (OUTPUT_DIR script0) "sub/x" = Some audio
  ∧ out_results <$> main script0 force_args (voices_reply ["sub/x"])
                      skipping_schedule mixed_fs
    = Some [Skipped "sub/x" (output_path (OUTPUT_DIR script0) "sub/x")]
  ∧ posts ∘ out_sent <$> main script0 force_args (voices_reply ["sub/x"])
                           skipping_schedule mixed_fs
    = Some []
  ∧ fs_after script0 force_args (voices_reply ["sub/x"]) skipping_schedule mixed_fs
      !! output_path (OUTPUT_DIR script0) "sub/x" = Some audio.
Proof. repeat split; vm_compute; reflexivity. Qed.

(** C8, as the code has it.  The work items of voices that are distinct and
    contain no "/" have distinct output paths. *)
Theorem output_paths_distinct (script_file : Path) (args : Args)
    (go : http_outcome) (voices : list string) (i j : nat) (vi vj : string) :
  get_voices (arg_api_url args) go = inr (Voices voices) →
  NoDup voices → Forall plain_voice voices →
  voices !! i = Some vi → voices !! j = Some vj → i ≠ j →
  output_path (OUTPUT_DIR script_file) vi ≠ output_path (OUTPUT_DIR script_file) vj.
Proof. intros _ Hnd Hplain. by apply paths_distinct. Qed.

Lemma output_paths_distinct_witness :
  get_voices "http://localhost:8880" (voices_reply two_voices) = inr (Voices two_voices)
  ∧ NoDup two_voices ∧ Forall plain_voice two_voices
  ∧ output_path (OUTPUT_DIR script0) "af_bella"
    ≠ output_path (OUTPUT_DIR script0) "am_adam".
Proof.
  split; [reflexivity|]. split; [exact two_voices_distinct|].
  split; [exact two_voices_plain|].
  apply (output_paths_distinct script0 default_args (voices_reply two_voices)
           two_voices 0 1 "af_bella" "am_adam" eq_refl two_voices_distinct
           two_voices_plain eq_refl eq_refl).
  lia.
Defined.

(** C8 as stated fails: the list of the service is not deduplicated, so a
    voice listed twice gives two work items with one output path. *)
Lemma output_paths_distinct_counterexample :
  ∃ voices st0 v0 v1,
    main_setup script0 default_args (voices_reply ["af_bella"; "af_bella"]) ∅
    = inr (voices, st0)
    ∧ length (items st0) = 2
    ∧ voices !! 0 = Some v0 ∧ voices !! 1 = Some v1
    ∧ output_path (OUTPUT_DIR script0) v0 = output_path (OUTPUT_DIR script0) v1.
Proof. eexists _, _, _, _. repeat split; reflexivity. Qed.

(** Distinct identifiers are not enough either: pathlib drops a leading
    "./", so two different voices can share an output path. *)
Lemma output_path_not_injective :
  output_path (OUTPUT_DIR script0) "a" = output_path (OUTPUT_DIR script0) "./a".
Proof. reflexivity. Qed.

(** ** The exit status *)

Lemma raise_for_status_spec (r : Response) :
  is_Some (raise_for_status r) ↔ (400 ≤ status_code r < 600)%Z.
Proof.
  unfold raise_for_status.
  destruct (bool_decide (400 ≤ status_code r < 500)%Z) eqn:H4;
    [apply bool_decide_eq_true in H4 | apply bool_decide_eq_false in H4].
  { split; [lia | by eexists]. }
  destruct (bool_decide (500 ≤ status_code r < 600)%Z) eqn:H5;
    [apply bool_decide_eq_true in H5 | apply bool_decide_eq_false in H5].
  { split; [lia | by eexists]. }
  split; [by intros [? ?] | lia].
Qed.


(** Every run has an outcome: whatever the inputs, some schedule brings
    [main] to its end. *)
Lemma main_total (script_file : Path) (args : Args) (go : http_outcome) (fs0 : FS) :
  ∃ evs out, main script_file args go evs fs0 = Some out.
Proof.
  unfold main. destruct (main_setup _ _ _ _) as [o|[voices st0]] eqn:Hs.
  - by exists [], o.
  - apply main_setup_pool in Hs as (_ & Hw & ->).
    destruct (run_collects (arg_api_url args) voices (OUTPUT_DIR script_file)
                (batch_size args) (pool_init voices
                   (if force args then clear_samples (OUTPUT_DIR script_file) fs0
                    else fs0) [GET (voices_url (arg_api_url args))]) Hw)
      as (evs & st & Hrun & Hall).
    { simpl. apply length_replicate. }
    { by intros i ph [-> _]%lookup_replicate. }
    exists evs, (Returned st). rewrite Hrun. simpl. by rewrite Hall.
Qed.

(** [process] has the runs of [main], when neither [mkdir] nor [unlink]
    raises. *)
Lemma process_main (script_file : Path) (args : Args) (go : http_outcome)
    (evs : list event) (fs0 : FS) (out : outcome) :
  ¬ mkdir_raises evs → ¬ unlink_raises evs →
  main script_file args go evs fs0 = Some out →
  process script_file args go evs fs0 = Some out.
Proof.
  intros Hm Hu. unfold main, process.
  assert (Hend : ∀ st, (if all_collected st then Some (Returned st) else None)
                       = Some out → pool_end st = Some out).
  { intros st. unfold pool_end. by destruct (all_collected st). }
  destruct evs as [|[] evs']; try (exfalso; apply Hm; by eexists _, _);
    try (exfalso; apply Hu; by eexists _, _, _);
    (destruct (main_setup _ _ _ _) as [out'|[voices st0]]; [done|]);
    (destruct (run _ _ _ _ _ _) as [st|]; simpl; [apply Hend | done]).
Qed.









(** The status is 1 as well when the endpoint answers 200 with a body that
    has no "voices": neither a connection failure nor a non-success status. *)
Lemma exit_code_malformed_body :
  exit_code <$> process script0 default_args
                  (Returns (mkResponse 200 "OK" "http://localhost:8880/v1/audio/voices"
                              [] (inl (BodyError "'voices'")))) [] ∅
  = Some 1%Z.
Proof. vm_compute; reflexivity. Qed.

(** A body [{"voices": null}] is returned by [get_voices] as it is; line 102
    then raises TypeError. *)
Lemma exit_code_voices_null :
  get_voices "http://localhost:8880"
    (Returns (mkResponse 200 "OK" "http://localhost:8880/v1/audio/voices" []
                (inr (Unsized "NoneType"))))
  = inr (Unsized "NoneType")
  ∧ process script0 default_args
      (Returns (mkResponse 200 "OK" "http://localhost:8880/v1/audio/voices" []
                  (inr (Unsized "NoneType")))) [] ∅
    = Some (Uncaught (TypeError "object of type 'NoneType' has no len()") ∅
              [GET "http://localhost:8880/v1/audio/voices"]).
Proof. split; reflexivity. Qed.

(** [mkdir] raising ends the process before the voice list is asked for. *)
Lemma exit_code_mkdir_raises :
  process script0 default_args (voices_reply two_voices)
    [EvMkdirRaises (OSError "[Errno 20] Not a directory")] ∅
  = Some (Uncaught (OSError "[Errno 20] Not a directory") ∅ []).
Proof. reflexivity. Qed.

(** With [--force], an [unlink] that raises (on a directory named [d.mp3])
    ends the process with status 1 although the voice list was fetched. *)
Lemma exit_code_unlink_raises :
  exit_code <$> process script0 force_args (voices_reply two_voices)
                  [EvUnlinkRaises (OSError "[Errno 21] Is a directory") []] mixed_fs
  = Some 1%Z.
Proof. vm_compute; reflexivity. Qed.

(** ** Failures *)

Lemma gs_response_status (resp : Response) :
  (400 ≤ status_code resp < 600)%Z → ∃ e, gs_response (Returns resp) = inl e.
Proof.
  intros [e He]%raise_for_status_spec. unfold gs_response. rewrite He. eauto.
Qed.

Lemma gs_response_passes (resp : Response) :
  ¬ (400 ≤ status_code resp < 600)%Z →
  gs_response (Returns resp) = inr (content resp).
Proof.
  intros Hs. unfold gs_response.
  destruct (raise_for_status resp) eqn:He; [|done].
  exfalso. apply Hs, raise_for_status_spec. eauto.
Qed.

(** Once past the skip test, whatever goes wrong between lines 52 and 59
    ends in the result of the except clause. *)
Lemma generate_sample_catches (api_url voice : string) (output_dir : Path)
    (po : http_outcome) (wo : write_outcome) (fs0 : FS) :
  ¬ nonempty_file fs0 (output_path output_dir voice) →
  (∀ e, po = Raises e →
        generate_sample api_url voice output_dir po wo fs0
        = (Error voice (str e), fs0, [POST (speech_url api_url) (payload voice)]))
  ∧ (∀ resp, po = Returns resp → (400 ≤ status_code resp < 600)%Z →
       ∃ msg, generate_sample api_url voice output_dir po wo fs0
              = (Error voice msg, fs0, [POST (speech_url api_url) (payload voice)]))
  ∧ (∀ resp e reached,
       po = Returns resp → ¬ (400 ≤ status_code resp < 600)%Z →
       wo = WriteFails e reached →
       ∃ fs1, generate_sample api_url voice output_dir po wo fs0
              = (Error voice (str e), fs1,
                 [POST (speech_url api_url) (payload voice)])).
Proof.
  intros Hn. unfold generate_sample. rewrite gs_begin_post by done.
  split; [|split].
  - by intros e ->.
  - intros resp -> [e He]%gs_response_status. rewrite He. by eexists.
  - intros resp e reached -> Hs%gs_response_passes ->. rewrite Hs.
    unfold gs_store, write_bytes. destruct reached; by eexists.
Qed.

(** A successful response is written as it is: [generate_sample] never looks
    into the body, so no body makes it fail. *)
Lemma generate_sample_any_body (api_url voice : string) (output_dir : Path)
    (po : http_outcome) (data : bytes) (fs0 : FS) :
  ¬ nonempty_file fs0 (output_path output_dir voice) →
  gs_response po = inr data →
  generate_sample api_url voice output_dir po Written fs0
  = (Ok voice (output_path output_dir voice) (length data),
     <[output_path output_dir voice := data]> fs0,
     [POST (speech_url api_url) (payload voice)]).
Proof.
  intros Hn H. unfold generate_sample. rewrite gs_begin_post by done.
  by rewrite H.
Qed.










(** ** What a failure leaves on disk *)

Lemma step_no_sample_left (api_url : string) (voices : list string)
    (output_dir : Path) (max_workers : Z) (ev : event) (st st' : pool) (k : nat) :
  NoDup voices → Forall plain_voice voices →
  ¬ partial_write k ev →
  no_sample_left voices output_dir k st →
  step api_url voices output_dir max_workers ev st st' →
  no_sample_left voices output_dir k st'.
Proof.
  intros Hnd Hplain Hpart Hinv H vk ph Hvk Hph Hatt.
  assert (Hother : ∀ j vj, j ≠ k → voices !! j = Some vj →
            output_path output_dir vj ≠ output_path output_dir vk).
  { intros j vj Hne Hvj. by apply (paths_distinct voices output_dir Hnd Hplain j k). }
  on_step H; simpl in Hph |- *;
    (apply list_lookup_insert_Some in Hph as [(-> & <- & _)|(Hne & Hph)];
     [try (rewrite Hvk in Hv; injection Hv as <-)
     |try exact (Hinv _ _ Hvk Hph Hatt)]).
  - apply gs_begin_voice in Hb as ->. by destruct Hatt as [?|(? & [= <-] & ?)].
  - by destruct (gs_begin_cases api_url vk output_dir (fs st)) as [[_ Hb']|[Hn _]];
      [rewrite Hb' in Hb|].
  - apply (Hinv _ _ Hvk Hi). by left.
  - apply (Hinv _ _ Hvk Hi). by left.
  - apply gs_store_cases in Hs as [-> [(-> & -> & _)|(e & reached & -> & ->)]].
    { by destruct Hatt as [?|(? & [= <-] & ?)]. }
    destruct reached as [[|n]|]; simpl.
    + intros (d & Hd & Hne). rewrite lookup_insert_eq in Hd. by injection Hd as <-.
    + exfalso. apply Hpart. by eexists _, _.
    + apply (Hinv _ _ Hvk Hi). by left.
  - apply gs_store_cases in Hs as [-> _].
    rewrite (nonempty_file_ext _ (fs st)); [exact (Hinv _ _ Hvk Hph Hatt)|].
    apply write_bytes_other. intros Heq. by apply (Hother i voice).
  - apply (Hinv _ _ Hvk Hi). by destruct Hatt as [?|(? & [= <-] & ?)]; [|right; eauto].
  - by destruct Hatt as [?|(? & ? & ?)].
  - by destruct Hatt as [?|(? & ? & ?)].
Qed.

Lemma step_skips_faithful (api_url : string) (voices : list string)
    (output_dir : Path) (max_workers : Z) (fs1 : FS) (ev : event)
    (st st' : pool) :
  NoDup voices → Forall plain_voice voices →
  skips_faithful voices output_dir fs1 st →
  step api_url voices output_dir max_workers ev st st' →
  skips_faithful voices output_dir fs1 st'.
Proof.
  intros Hnd Hplain [Hfile Hpast] H. split.
  - intros j vj Hvj Hj.
    assert (Hjq : items st !! j = Some Queued).
    { apply step_moves in H as (i & old & new & Hi & Hst & Hm).
      rewrite Hst in Hj.
      apply list_lookup_insert_Some in Hj as [(-> & -> & _)|[_ ?]]; [|done].
      rewrite Hvj in Hm. specialize (Hm _ eq_refl). inversion Hm. }
    rewrite (step_fs _ _ _ _ _ _ _ _ H); [by eapply Hfile|].
    intros i vi data Hvi Hi.
    apply (paths_distinct voices output_dir Hnd Hplain i j); try done.
    intros ->. congruence.
  - intros j vj ph Hvj Hj.
    on_step H; simpl in Hj;
      apply list_lookup_insert_Some in Hj as [(-> & <- & _)|(_ & Hj)];
      try exact (Hpast _ _ _ Hvj Hj);
      try (rewrite Hvj in Hv; injection Hv as <-).
    + destruct (gs_begin_cases api_url vj output_dir (fs st)) as [[Hy Hb']|[Hn Hb']];
        rewrite Hb' in Hb; [|done]. injection Hb as <-. simpl.
      split; [done|]. intros _ _ _.
      by apply (nonempty_file_ext _ _ _ (Hfile _ _ Hvj Hi)).
    + destruct (gs_begin_cases api_url vj output_dir (fs st)) as [[Hy Hb']|[Hn Hb']];
        rewrite Hb' in Hb; [done|]. simpl.
      split; [|done]. intros _ Hy. apply Hn.
      by apply (nonempty_file_ext _ _ _ (Hfile _ _ Hvj Hi)).
    + split; [intros _; by apply (Hpast _ _ Posting Hvj Hi) | by intros ? [= <-]].
    + split; [intros _; by apply (Hpast _ _ Posting Hvj Hi) | done].
    + apply gs_store_cases in Hs as [_ [(_ & -> & _)|(e & n & _ & ->)]];
        (split; [intros _; by apply (Hpast _ _ (Writing data) Hvj Hi)
                |by intros ? [= <-]]).
    + exact (Hpast _ _ (Finished r) Hvj Hi).
    + done.
    + done.
Qed.

(** C6, as the code has it.  For voices that are distinct and contain no
    "/": when the result of a voice is [failed] and no write of its work
    item failed after bytes had reached the file, the output file of the
    voice is missing or empty from then on, and so when the run ends.  The
    next [generate_sample] for that voice sends the request again, and in
    a next run without [--force] on the same voices the voice is not
    skipped. *)
Theorem failed_voice_retried (script_file : Path) (args : Args)
    (go : http_outcome) (evs : list event) (fs0 : FS) (voices : list string)
    (st : pool) (i : nat) (voice msg : string) (ph : phase) :
  get_voices (arg_api_url args) go = inr (Voices voices) →
  NoDup voices → Forall plain_voice voices →
  main_reaches script_file args go evs fs0 st →
  voices !! i = Some voice →
  items st !! i = Some ph → result_of ph = Some (Error voice msg) →
  (∀ ev, ev ∈ evs → ¬ partial_write i ev) →
  ¬ nonempty_file (fs st) (output_path (OUTPUT_DIR script_file) voice)
  ∧ (∀ po wo,
       (generate_sample (arg_api_url args) voice (OUTPUT_DIR script_file) po wo
          (fs st)).2
       = [POST (speech_url (arg_api_url args)) (payload voice)])
  ∧ (∀ args2 go2 evs2 st2 r2,
       force args2 = false →
       get_voices (arg_api_url args2) go2 = inr (Voices voices) →
       main script_file args2 go2 evs2 (fs st) = Some (Returned st2) →
       out_results (Returned st2) !! i = Some r2 →
       status_of r2 ≠ st_skipped).
Proof.
  intros Hg Hnd Hplain Hreach Hv Hph Hres Hpart.
  pose proof Hreach as (vs & Hg' & Hw & Hlen & Hrun)%main_reaches_pool.
  rewrite Hg in Hg'. injection Hg' as <-.
  set (dir := OUTPUT_DIR script_file) in *.
  assert (Hinv : no_sample_left voices dir i st).
  { eapply (run_invariant_in _ _ _ _ (no_sample_left voices dir i) evs);
      [| |exact Hrun].
    - intros ev s s' Hin Hp Hst.
      eapply step_no_sample_left; [done | done | by apply Hpart | done | exact Hst].
    - intros v ph0 _ [-> _]%lookup_replicate [?|(? & ? & ?)]; done. }
  assert (Hn : ¬ nonempty_file (fs st) (output_path dir voice)).
  { apply (Hinv _ _ Hv Hph). right. eauto. }
  split; [exact Hn|]. split.
  - intros po wo. unfold generate_sample. rewrite gs_begin_post by done.
    destruct (gs_response po); [done|]. by destruct (gs_store _ _ _ _ _).
  - intros args2 go2 evs2 st2 r2 Hforce Hg2
      [(vs2 & st02 & Hs2 & Hrun2) Hall2]%main_returned Hr2.
    apply main_setup_pool in Hs2 as (Hg2' & _ & ->).
    rewrite Hg2 in Hg2'. injection Hg2' as <-. rewrite Hforce in Hrun2.
    assert (Hsk : skips_faithful voices dir (fs st) st2).
    { eapply (run_invariant _ _ _ _ _
                (λ ev s s' Hk Hst,
                   step_skips_faithful _ _ _ _ (fs st) ev s s' Hnd Hplain Hk Hst)
                _ _ _ _ Hrun2).
      Unshelve. split; [done|].
      by intros j vj ph0 _ [-> _]%lookup_replicate. }
    destruct (run_final _ _ _ _ _ _ _ _ Hrun2 Hall2) as (rs & Hi & _).
    simpl in Hr2. rewrite Hi, omap_result_collected in Hr2.
    assert (Hc : items st2 !! i = Some (Collected r2))
      by (by rewrite Hi, list_lookup_fmap, Hr2).
    intros Hskip. apply Hn.
    exact (proj2 (proj2 Hsk i voice (Collected r2) Hv Hc) r2 eq_refl Hskip).
Qed.

Lemma failed_voice_retried_witness :
  ∃ st,
    main_reaches script0 default_args (voices_reply ["af_bella"]) failing_schedule
      empty_sample_fs st
    ∧ items st !! 0
      = Some (Collected (Error "af_bella"
           "500 Server Error: Internal Server Error for url: http://localhost:8880/v1/audio/speech"))
    ∧ (∀ ev, ev ∈ failing_schedule → ¬ partial_write 0 ev)
    ∧ ¬ nonempty_file (fs st) (output_path (OUTPUT_DIR script0) "af_bella").
Proof.
  destruct (main_reaches_observed (λ s, items s !! 0) script0 default_args
              (voices_reply ["af_bella"]) failing_schedule empty_sample_fs
              ["af_bella"]
              (Some (Collected (Error "af_bella"
                 "500 Server Error: Internal Server Error for url: http://localhost:8880/v1/audio/speech"))))
    as (st & Hr & Hi); [reflexivity | simpl; lia | vm_compute; reflexivity|].
  assert (Hpart : ∀ ev, ev ∈ failing_schedule → ¬ partial_write 0 ev).
  { intros ev Hin (e & n & ->).
    repeat (apply elem_of_cons in Hin as [Hin|Hin]; [discriminate|]).
    by apply elem_of_nil in Hin. }
  exists st. split; [exact Hr|]. split; [exact Hi|]. split; [exact Hpart|].
  refine (proj1 (failed_voice_retried script0 default_args
                   (voices_reply ["af_bella"]) failing_schedule empty_sample_fs
                   ["af_bella"] st 0 "af_bella" _ _ eq_refl _ _ Hr eq_refl Hi
                   eq_refl Hpart)).
  - apply NoDup_singleton.
  - by repeat constructor.
Defined.

(** C6 as stated fails.  A write that fails after some bytes reached the
    file leaves a non-empty file behind a [failed] result, and the next run
    skips the voice instead of attempting it again.  And an empty output
    file left by an earlier run passes the skip test: when the request then
    gets a 500, the result is [failed] and the file is still there after
    the run. *)
Lemma failed_voice_counterexample :
  (fmap status_of ∘ out_results
     <$> main script0 default_args (voices_reply ["af_bella"])
           (partial_write_schedule audio 1) ∅
   = Some [st_error]
   ∧ fs_after script0 default_args (voices_reply ["af_bella"])
       (partial_write_schedule audio 1) ∅
       !! output_path (OUTPUT_DIR script0) "af_bella" = Some [Byte.x49]
   ∧ fmap status_of ∘ out_results
       <$> main script0 default_args (voices_reply ["af_bella"]) skipping_schedule
             (fs_after script0 default_args (voices_reply ["af_bella"])
                (partial_write_schedule audio 1) ∅)
     = Some [st_skipped]
   ∧ posts ∘ out_sent
       <$> main script0 default_args (voices_reply ["af_bella"]) skipping_schedule
             (fs_after script0 default_args (voices_reply ["af_bella"])
                (partial_write_schedule audio 1) ∅)
     = Some [])
  ∧ (fmap status_of ∘ out_results
       <$> main script0 default_args (voices_reply ["af_bella"]) failing_schedule
             empty_sample_fs
     = Some [st_error]
     ∧ fs_after script0 default_args (voices_reply ["af_bella"]) failing_schedule
         empty_sample_fs !! output_path (OUTPUT_DIR script0) "af_bella" = Some []).
Proof. repeat split; vm_compute; reflexivity. Qed.

(** ** Running the batch again *)

(** C4, as the code has it.  When the first run generated a non-empty
    sample for every voice, a second run on the same voices without
    [--force] skips every voice, sends no synthesis request and leaves the
    filesystem as the first run left it. *)
Theorem rerun_skips_all (script_file : Path) (args1 args2 : Args)
    (go1 go2 : http_outcome) (evs1 evs2 : list event) (fs0 : FS)
    (voices : list string) (st1 : pool) (out2 : outcome) :
  get_voices (arg_api_url args1) go1 = inr (Voices voices) →
  get_voices (arg_api_url args2) go2 = inr (Voices voices) →
  force args2 = false →
  main script_file args1 go1 evs1 fs0 = Some (Returned st1) →
  Forall generated_nonempty (out_results (Returned st1)) →
  main script_file args2 go2 evs2 (fs st1) = Some out2 →
  Forall (λ r, status_of r = st_skipped) (out_results out2)
  ∧ posts (out_sent out2) = []
  ∧ out_fs out2 = fs st1
  ∧ ((0 < batch_size args2)%Z → length (out_results out2) = length voices).
Proof.
  intros Hg1 Hg2 Hforce [(vs & st0 & Hs & Hrun1) Hall1]%main_returned Hgood Hmain2.
  apply main_setup_pool in Hs as (Hg1' & _ & ->).
  rewrite Hg1 in Hg1'. injection Hg1' as <-.
  pose proof (run_generated_files _ _ _ _ _ _ _ _ Hrun1 Hall1 Hgood) as Hfiles.
  unfold main, main_setup, ThreadPoolExecutor in Hmain2.
  rewrite Hg2, Hforce in Hmain2. case_bool_decide as Hw.
  - injection Hmain2 as <-. simpl. repeat split; [by constructor | lia].
  - destruct (run _ _ _ _ evs2 _) as [st2|] eqn:Hrun2; simpl in Hmain2; [|done].
    destruct (all_collected st2) eqn:Hall2; [|done]. injection Hmain2 as <-.
    pose proof (run_invariant _ _ _ _ _
                  (λ ev s s' Hp Hs,
                     step_all_skipping _ _ _ _ _ _ ev s s' Hfiles Hp Hs) _ _ _
                  (init_all_skipping _ _ _) Hrun2) as (Hfs & Hsent & Hitems).
    destruct (run_final _ _ _ _ _ _ _ _ Hrun2 Hall2) as (rs & Hi & Hv & _).
    simpl. rewrite Hfs, Hsent, Hi, omap_result_collected.
    split; [|split; [done|split; [done|]]].
    + apply Forall_lookup. intros i r Hr.
      assert (Hc : items st2 !! i = Some (Collected r))
        by (by rewrite Hi, list_lookup_fmap, Hr).
      by apply (Hitems _ _ Hc).
    + intros _. by rewrite <- Hv, length_fmap.
Qed.

Lemma rerun_skips_all_witness :
  ∃ st1 st2,
    main script0 default_args (voices_reply ["af_bella"]) (writing_schedule audio) ∅
    = Some (Returned st1)
    ∧ main script0 default_args (voices_reply ["af_bella"]) skipping_schedule (fs st1)
      = Some (Returned st2)
    ∧ Forall (λ r, status_of r = st_skipped) (out_results (Returned st2))
    ∧ posts (sent st2) = []
    ∧ fs st2 = fs st1.
Proof.
  destruct (main_exit_0 script0 default_args (voices_reply ["af_bella"])
              (writing_schedule audio) ∅) as [st1 H1]; [vm_compute; reflexivity|].
  destruct (main_exit_0 script0 default_args (voices_reply ["af_bella"])
              skipping_schedule
              (fs_after script0 default_args (voices_reply ["af_bella"])
                 (writing_schedule audio) ∅)) as [st2 H2];
    [vm_compute; reflexivity|].
  rewrite (fs_after_returned _ _ _ _ _ _ H1) in H2.
  assert (Hgood : Forall generated_nonempty (out_results (Returned st1))).
  { assert (Hobs : out_results <$> main script0 default_args
                     (voices_reply ["af_bella"]) (writing_schedule audio) ∅
                   = Some [Ok "af_bella" (output_path (OUTPUT_DIR script0) "af_bella") 3])
      by (vm_compute; reflexivity).
    rewrite H1 in Hobs. injection Hobs as Hobs. simpl in Hobs |- *. rewrite Hobs.
    repeat constructor. eexists _, _, _. split; [reflexivity | lia]. }
  exists st1, st2. split; [exact H1|]. split; [exact H2|].
  pose proof (rerun_skips_all script0 default_args default_args
                (voices_reply ["af_bella"]) (voices_reply ["af_bella"])
                (writing_schedule audio) skipping_schedule ∅ ["af_bella"] st1
                (Returned st2) eq_refl eq_refl eq_refl H1 Hgood H2) as H.
  exact (conj (proj1 H) (conj (proj1 (proj2 H)) (proj1 (proj2 (proj2 H))))).
Defined.

(** C4 as stated fails: when the service answers the synthesis request with
    200 and an empty body, the first run reports the voice as generated and
    writes an empty file; the second run does not skip it, sends the request
    again and rewrites the file. *)
Lemma rerun_skips_all_counterexample :
  fmap status_of ∘ out_results
    <$> main script0 default_args (voices_reply ["af_bella"]) (writing_schedule []) ∅
  = Some [st_ok]
  ∧ fs_after script0 default_args (voices_reply ["af_bella"]) (writing_schedule []) ∅
      !! output_path (OUTPUT_DIR script0) "af_bella" = Some []
  ∧ fmap status_of ∘ out_results
      <$> main script0 default_args (voices_reply ["af_bella"]) (writing_schedule audio)
            (fs_after script0 default_args (voices_reply ["af_bella"])
               (writing_schedule []) ∅)
    = Some [st_ok]
  ∧ length ∘ posts ∘ out_sent
      <$> main script0 default_args (voices_reply ["af_bella"]) (writing_schedule audio)
            (fs_after script0 default_args (voices_reply ["af_bella"])
               (writing_schedule []) ∅)
    = Some 1
  ∧ fs_after script0 default_args (voices_reply ["af_bella"]) (writing_schedule audio)
      (fs_after script0 default_args (voices_reply ["af_bella"])
         (writing_schedule []) ∅)
      !! output_path (OUTPUT_DIR script0) "af_bella" = Some audio.
Proof. repeat split; vm_compute; reflexivity. Qed.

(** Nor does [--force] keep the second work item of a voice listed twice
    from being skipped, once the first has written the file. *)
Lemma force_duplicate_skipped :
  fmap status_of ∘ out_results
    <$> main script0 (mkArgs "http://localhost:8880" 1 true)
          (voices_reply ["af_bella"; "af_bella"]) duplicate_schedule mixed_fs
  = Some [st_ok; st_skipped]
  ∧ length ∘ posts ∘ out_sent
      <$> main script0 (mkArgs "http://localhost:8880" 1 true)
            (voices_reply ["af_bella"; "af_bella"]) duplicate_schedule mixed_fs
    = Some 1.
Proof. split; vm_compute; reflexivity. Qed.

(** * Further properties of the functions *)

(** ** get_voices *)

(** X1. [get_voices] returns exactly when the GET call returns, the status
    is outside 400..599 (so 1xx, 2xx and 3xx all pass) and reading the field
    "voices" of the body does not raise.  It returns what the field holds,
    as it is: a list with its order and its duplicates, and just as well a
    value that is no list. *)
Theorem get_voices_returns_iff (api_url : string) (go : http_outcome)
    (v : voices_value) :
  get_voices api_url go = inr v
  ↔ ∃ resp, go = Returns resp
            ∧ ¬ (400 ≤ status_code resp < 600)%Z
            ∧ json_voices resp = inr v.
Proof.
  unfold get_voices. destruct go as [e|resp].
  - split; [done | by intros (r & ? & _)].
  - pose proof (raise_for_status_spec resp) as Hs.
    destruct (raise_for_status resp) as [e|].
    + split; [done|]. intros (r & [= <-] & Hn & _). exfalso. apply Hn, Hs. eauto.
    + assert (Hn : ¬ (400 ≤ status_code resp < 600)%Z)
        by (intros H; apply Hs in H; by destruct H).
      split; [eauto|]. by intros (r & [= <-] & _ & Hv).
Qed.

(** ** generate_sample *)


(** X3. When the output file is missing or empty, the response is not a
    4xx or 5xx and the write succeeds, [generate_sample] stores the body of
    the response verbatim under the output path, whatever the body is,
    reports [ok] with its length in bytes, and has sent the one POST. *)
Theorem generate_sample_stores_body (api_url voice : string) (output_dir : Path)
    (resp : Response) (fs0 : FS) :
  ¬ nonempty_file fs0 (output_path output_dir voice) →
  ¬ (400 ≤ status_code resp < 600)%Z →
  generate_sample api_url voice output_dir (Returns resp) Written fs0
  = (Ok voice (output_path output_dir voice) (length (content resp)),
     <[output_path output_dir voice := content resp]> fs0,
     [POST (speech_url api_url) (payload voice)])
  ∧ (generate_sample api_url voice output_dir (Returns resp) Written fs0).1.2
      !! output_path output_dir voice = Some (content resp).
Proof.
  intros Hn Hst.
  assert (Hr : gs_response (Returns resp) = inr (content resp))
    by (by apply gs_response_passes).
  assert (Hg := generate_sample_any_body api_url voice output_dir _ _ fs0 Hn Hr).
  split; [exact Hg|]. rewrite Hg. simpl. apply lookup_insert_eq.
Qed.

Lemma generate_sample_stores_body_witness :
  ¬ nonempty_file ∅ (output_path (OUTPUT_DIR script0) "af_bella")
  ∧ (generate_sample "http://localhost:8880" "af_bella" (OUTPUT_DIR script0)
       (speech_reply audio) Written ∅).1.2
      !! output_path (OUTPUT_DIR script0) "af_bella" = Some audio.
Proof.
  assert (Hn : ¬ nonempty_file ∅ (output_path (OUTPUT_DIR script0) "af_bella")).
  { intros (d & Hd & _). by rewrite lookup_empty in Hd. }
  split; [exact Hn|].
  refine (proj2 (generate_sample_stores_body "http://localhost:8880" "af_bella"
                   (OUTPUT_DIR script0)
                   (mkResponse 200 "OK" "http://localhost:8880/v1/audio/speech"
                      audio (inl (BodyError "Expecting value: line 1 column 1 (char 0)")))
                   ∅ Hn _)).
  simpl; lia.
Defined.

(** X4. Whatever the service answers and whatever happens to the write,
    [generate_sample] for a voice identifier without "/" changes no file
    but [<voice>.mp3] in the output directory (for paths without ".." and
    links, so that different paths are different files). *)
Theorem generate_sample_frame (api_url voice : string) (output_dir : Path)
    (po : http_outcome) (wo : write_outcome) (fs0 : FS) (p : Path) :
  plain_voice voice → canonical output_dir → canonical p →
  p ≠ mkPath (root output_dir) (parts output_dir ++ [voice ++ ".mp3"]) →
  (generate_sample api_url voice output_dir po wo fs0).1.2 !! p = fs0 !! p.
Proof.
  intros Hv _ _ Hp. rewrite <- (output_path_plain output_dir voice Hv) in Hp.
  unfold generate_sample.
  destruct (gs_begin api_url voice output_dir fs0) as [r0|req]; [done|].
  destruct (gs_response po) as [e|data]; [done|].
  destruct (gs_store voice output_dir data wo fs0) as [r fs'] eqn:Hs. simpl.
  apply gs_store_cases in Hs as [-> _]. by apply write_bytes_other.
Qed.

Lemma canonical_output_dir : canonical (OUTPUT_DIR script0).
Proof. split; [reflexivity|]. apply (bool_decide_unpack _). vm_compute. exact I. Qed.

Lemma generate_sample_frame_witness :
  plain_voice "af_bella" ∧ canonical (OUTPUT_DIR script0)
  ∧ canonical (OUTPUT_DIR script0 // "notes.txt")
  ∧ (generate_sample "http://localhost:8880" "af_bella" (OUTPUT_DIR script0)
       (speech_reply audio) Written mixed_fs).1.2
      !! (OUTPUT_DIR script0 // "notes.txt") = Some audio.
Proof.
  assert (Hc : canonical (OUTPUT_DIR script0 // "notes.txt")).
  { split; [reflexivity|]. apply (bool_decide_unpack _). vm_compute. exact I. }
  split; [reflexivity|]. split; [exact canonical_output_dir|]. split; [exact Hc|].
  rewrite (generate_sample_frame "http://localhost:8880" "af_bella"
             (OUTPUT_DIR script0) (speech_reply audio) Written mixed_fs _
             eq_refl canonical_output_dir Hc).
  - vm_compute; reflexivity.
  - discriminate.
Defined.

(** X5. [generate_sample] makes a single attempt: it sends nothing or the
    one POST to [/v1/audio/speech], whose payload names its own voice and
    the fixed text, format, mode and speed; and the result it returns names
    its own voice. *)
Theorem generate_sample_single_attempt (api_url voice : string)
    (output_dir : Path) (po : http_outcome) (wo : write_outcome) (fs0 : FS) :
  ((generate_sample api_url voice output_dir po wo fs0).2 = []
   ∨ (generate_sample api_url voice output_dir po wo fs0).2
     = [POST (api_url ++ "/v1/audio/speech")
          (mkPayload "kokoro" "Hello Everyone, Welcome to Dexterous!" voice
             "mp3" false (10, 10)%Z)])
  ∧ voice_of (generate_sample api_url voice output_dir po wo fs0).1.1 = voice.
Proof.
  unfold generate_sample.
  destruct (gs_begin api_url voice output_dir fs0) as [r|req] eqn:Hb.
  - apply gs_begin_voice in Hb as ->. simpl. by split; [left|].
  - unfold gs_begin in Hb. destruct (_ && _); [done|]. injection Hb as <-.
    destruct (gs_response po) as [e|data]; simpl; [by split; [right|]|].
    destruct (gs_store voice output_dir data wo fs0) as [r fs'] eqn:Hs. simpl.
    split; [by right|]. by eapply gs_store_voice.
Qed.

(** X6. Calling [generate_sample] again for a voice that was just reported
    [ok]: the second call is skipped exactly when the first one stored at
    least one byte, and then it sends nothing and changes nothing.  After an
    [ok] with an empty body the second call sends the request again. *)
Theorem generate_sample_again (api_url voice : string) (output_dir : Path)
    (po po' : http_outcome) (wo wo' : write_outcome) (fs0 : FS) (p : Path)
    (size : nat) :
  (generate_sample api_url voice output_dir po wo fs0).1.1 = Ok voice p size →
  (0 < size →
   generate_sample api_url voice output_dir po' wo'
     (generate_sample api_url voice output_dir po wo fs0).1.2
   = (Skipped voice (output_path output_dir voice),
      (generate_sample api_url voice output_dir po wo fs0).1.2, []))
  ∧ (size = 0 →
     (generate_sample api_url voice output_dir po' wo'
        (generate_sample api_url voice output_dir po wo fs0).1.2).2
     = [POST (speech_url api_url) (payload voice)]).
Proof.
  unfold generate_sample at 1.
  destruct (gs_begin api_url voice output_dir fs0) as [r0|req] eqn:Hb.
  { apply gs_begin_voice in Hb as ->. done. }
  destruct (gs_response po) as [e|data] eqn:Hr; [done|].
  destruct (gs_store voice output_dir data wo fs0) as [r fs'] eqn:Hs. simpl.
  intros ->.
  assert (Hfs : (generate_sample api_url voice output_dir po wo fs0).1.2 = fs').
  { unfold generate_sample. by rewrite Hb, Hr, Hs. }
  rewrite Hfs.
  apply gs_store_cases in Hs as [_ [(_ & [= ? ?] & ->)|(e & n & _ & ?)]]; [|done].
  subst p size. split.
  - intros Hsize. unfold generate_sample. rewrite gs_begin_skip; [done|].
    exists data. split; [apply lookup_insert_eq|]. intros ->. simpl in Hsize. lia.
  - intros Hsize. unfold generate_sample. rewrite gs_begin_post.
    + destruct (gs_response po'); [done|].
      by destruct (gs_store _ _ _ _ _).
    + intros (d & Hd & Hne). rewrite lookup_insert_eq in Hd.
      injection Hd as <-. by destruct data.
Qed.

Lemma generate_sample_again_witness :
  status_of (generate_sample "http://localhost:8880" "af_bella"
               (OUTPUT_DIR script0) (speech_reply audio) Written ∅).1.1 = st_ok
  ∧ status_of
      (generate_sample "http://localhost:8880" "af_bella" (OUTPUT_DIR script0)
         server_error Written
         (generate_sample "http://localhost:8880" "af_bella" (OUTPUT_DIR script0)
            (speech_reply audio) Written ∅).1.2).1.1 = st_skipped.
Proof.
  split; [vm_compute; reflexivity|].
  assert (H : (generate_sample "http://localhost:8880" "af_bella"
                 (OUTPUT_DIR script0) (speech_reply audio) Written ∅).1.1
              = Ok "af_bella" (output_path (OUTPUT_DIR script0) "af_bella") 3)
    by (vm_compute; reflexivity).
  rewrite (proj1 (generate_sample_again "http://localhost:8880" "af_bella"
                    (OUTPUT_DIR script0) (speech_reply audio) server_error
                    Written Written ∅ _ 3 H)).
  - reflexivity.
  - lia.
Defined.

(** ** Output paths *)

(** X7. A voice identifier that begins with "/" is an absolute path for
    pathlib: its output path does not depend on the output directory at
    all, so the sample is looked for and written outside it. *)
Theorem output_path_absolute (dir1 dir2 : Path) (v : string) :
  output_path dir1 (String "/" v) = output_path dir2 (String "/" v).
Proof.
  unfold output_path, joinpath, splitroot.
  change (String "/" v ++ ".mp3") with (String "/" (v ++ ".mp3")).
  cbn [lstrip_sep]. rewrite Ascii.eqb_refl.
  destruct (lstrip_sep (v ++ ".mp3")) as [n rel].
  by destruct n as [|[|n]].
Qed.

(** X8. For a voice identifier without "/", the output path is the file
    [<voice>.mp3] directly in the output directory, a file the pattern
    [*.mp3] of the force cleanup matches. *)
Theorem plain_voice_output_file (dir : Path) (v : string) :
  plain_voice v →
  output_path dir v = mkPath (root dir) (parts dir ++ [v ++ ".mp3"])
  ∧ parent (output_path dir v) = dir
  ∧ is_mp3_child dir (output_path dir v) = true.
Proof.
  intros Hv. rewrite (output_path_plain dir v Hv).
  split; [done|]. split.
  - unfold parent. simpl. rewrite removelast_last. by destruct dir.
  - rewrite <- (output_path_plain dir v Hv). by apply is_mp3_child_output_path.
Qed.

Lemma plain_voice_output_file_witness :
  plain_voice "af_bella"
  ∧ output_path (OUTPUT_DIR script0) "af_bella"
    = mkPath "/" ["repo"; "web"; "voice_samples"; "af_bella.mp3"].
Proof.
  split; [reflexivity|].
  exact (proj1 (plain_voice_output_file (OUTPUT_DIR script0) "af_bella" eq_refl)).
Defined.

(** X9. The output directory is [web/voice_samples] under the directory
    two levels above the script file, whatever the names of the script and
    of the directory it lies in. *)
Theorem OUTPUT_DIR_location (r : string) (repo : list string) (d f : string) :
  OUTPUT_DIR (mkPath r (repo ++ [d; f]))
  = mkPath r (repo ++ ["web"; "voice_samples"]).
Proof.
  unfold OUTPUT_DIR, parent. simpl.
  replace (repo ++ [d; f])%list with ((repo ++ [d]) ++ [f])%list
    by (by rewrite <- app_assoc).
  rewrite !removelast_last.
  unfold joinpath. simpl. by rewrite <- app_assoc.
Qed.

(** ** The force cleanup *)

(** X10. After the cleanup of [--force] the pattern [*.mp3] matches nothing
    in the directory, and a second cleanup changes nothing. *)
Theorem clear_samples_idempotent (dir : Path) (fs0 : FS) :
  glob_mp3 (clear_samples dir fs0) dir = []
  ∧ clear_samples dir (clear_samples dir fs0) = clear_samples dir fs0.
Proof.
  assert (Hg : glob_mp3 (clear_samples dir fs0) dir = []).
  { destruct (glob_mp3 (clear_samples dir fs0) dir) as [|p l] eqn:Hl; [done|].
    assert (Hin : p ∈ glob_mp3 (clear_samples dir fs0) dir)
      by (rewrite Hl; apply list_elem_of_here).
    apply elem_of_glob_mp3 in Hin as [Hc [d Hd]].
    rewrite clear_samples_lookup, Hc in Hd. done. }
  split; [exact Hg|]. unfold clear_samples at 1. by rewrite Hg.
Qed.

(** * Further properties of a batch run *)

Lemma measure_init (voices : list string) (fs0 : FS) (sent0 : list request) :
  measure (pool_init voices fs0 sent0) = 4 * length voices.
Proof.
  unfold measure, pool_init. simpl.
  induction (length voices) as [|n IH]; simpl; [done|]. rewrite IH. lia.
Qed.

Lemma run_measure (api_url : string) (voices : list string) (output_dir : Path)
    (max_workers : Z) (evs : list event) (st st' : pool) :
  length (items st) = length voices →
  run api_url voices output_dir max_workers evs st = Some st' →
  (length evs + measure st' ≤ measure st)%nat.
Proof.
  revert st. induction evs as [|ev evs IH]; intros st Hlen; simpl.
  - intros [= <-]. lia.
  - destruct (exec _ _ _ _ ev st) as [st1|] eqn:He; simpl; [|done].
    apply exec_step in He. intros Hrun.
    pose proof (step_measure _ _ _ _ _ _ _ Hlen He).
    apply IH in Hrun; [lia|]. by rewrite (step_length _ _ _ _ _ _ _ He).
Qed.

(** X11. A schedule has at most four events per listed voice (start,
    response, write, collect): no work item is ever run again, and every
    run ends. *)
Theorem schedule_bounded (script_file : Path) (args : Args) (go : http_outcome)
    (evs : list event) (fs0 : FS) (voices : list string) (st : pool) :
  get_voices (arg_api_url args) go = inr (Voices voices) →
  main_reaches script_file args go evs fs0 st →
  (length evs + measure st ≤ 4 * length voices)%nat.
Proof.
  intros Hg (vs & Hg' & _ & _ & Hrun)%main_reaches_pool.
  rewrite Hg in Hg'. injection Hg' as <-.
  apply run_measure in Hrun.
  - by rewrite measure_init in Hrun.
  - simpl. apply length_replicate.
Qed.

Lemma schedule_bounded_witness :
  ∃ st,
    main_reaches script0 default_args (voices_reply two_voices) mixed_schedule ∅ st
    ∧ (length mixed_schedule + measure st ≤ 8)%nat.
Proof.
  destruct (main_reaches_observed measure script0 default_args
              (voices_reply two_voices) mixed_schedule ∅ two_voices 0)
    as (st & Hr & _); [reflexivity | simpl; lia | vm_compute; reflexivity|].
  exists st. split; [exact Hr|].
  exact (schedule_bounded script0 default_args (voices_reply two_voices)
           mixed_schedule ∅ two_voices st eq_refl Hr).
Defined.

(** The pool of [process] is the pool of [main]. *)
Lemma process_pool (script_file : Path) (args : Args) (go : http_outcome)
    (evs : list event) (fs0 : FS) (st : pool) :
  main_reaches script_file args go evs fs0 st →
  process script_file args go evs fs0 = pool_end st.
Proof.
  intros (voices & st0 & Hs & Hrun). unfold process.
  destruct evs as [|[] evs']; try done; by rewrite Hs, Hrun.
Qed.

(** X12. The pool never comes to a halt before its end.  In every state a
    run reaches where work is left, a worker can go on whatever the
    environment does (the response of a request in flight, the write of a
    body received, the start of the next voice in the queue, whether its
    test raises or not), or the loop of line 124 can take a future; and
    the run can be brought to an end of the process. *)
Theorem run_never_stuck (script_file : Path) (args : Args) (go : http_outcome)
    (evs : list event) (fs0 : FS) (voices : list string) (st : pool) :
  get_voices (arg_api_url args) go = inr (Voices voices) →
  main_reaches script_file args go evs fs0 st →
  (pool_end st = None →
   (∃ i, ∀ o, is_Some (exec (arg_api_url args) voices (OUTPUT_DIR script_file)
                         (batch_size args) (EvRespond i o) st))
   ∨ (∃ i, ∀ wo, is_Some (exec (arg_api_url args) voices (OUTPUT_DIR script_file)
                            (batch_size args) (EvWrite i wo) st))
   ∨ (is_Some (exec (arg_api_url args) voices (OUTPUT_DIR script_file)
                 (batch_size args) EvStart st)
      ∧ ∀ e, is_Some (exec (arg_api_url args) voices (OUTPUT_DIR script_file)
                        (batch_size args) (EvCrash e) st))
   ∨ (∃ i, is_Some (exec (arg_api_url args) voices (OUTPUT_DIR script_file)
                      (batch_size args) (EvCollect i) st)))
  ∧ ∃ evs' out, process script_file args go (evs ++ evs') fs0 = Some out.
Proof.
  intros Hg H. pose proof H as (vs & Hg' & Hw & Hlen & Hrun)%main_reaches_pool.
  rewrite Hg in Hg'. injection Hg' as <-. split.
  - by apply progress.
  - destruct (run_completes (arg_api_url args) voices (OUTPUT_DIR script_file)
                (batch_size args) st Hw Hlen) as (evs' & st' & Hrun' & [out Hout]).
    exists evs', out. rewrite <- Hout. apply process_pool.
    destruct H as (vs & st0 & Hs & Hrun0). exists vs, st0. split; [done|].
    pose proof (main_setup_pool _ _ _ _ _ _ Hs) as (Hg' & _ & _).
    rewrite Hg in Hg'. injection Hg' as <-.
    by rewrite run_app, Hrun0.
Qed.

Lemma run_never_stuck_witness :
  ∃ st evs' out,
    main_reaches script0 default_args (voices_reply two_voices) [EvStart; EvStart] ∅ st
    ∧ process script0 default_args (voices_reply two_voices)
        ([EvStart; EvStart] ++ evs') ∅ = Some out.
Proof.
  destruct (main_reaches_observed in_flight script0 default_args
              (voices_reply two_voices) [EvStart; EvStart] ∅ two_voices 2)
    as (st & Hr & _); [reflexivity | simpl; lia | vm_compute; reflexivity|].
  destruct (run_never_stuck script0 default_args (voices_reply two_voices)
              [EvStart; EvStart] ∅ two_voices st eq_refl Hr) as (_ & evs' & out & H).
  by exists st, evs', out.
Defined.

(** ** The requests of a run *)

Lemma init_sent_matches (voices : list string) (fs0 : FS) (url : string) :
  sent_matches (pool_init voices fs0 [GET url]).
Proof.
  unfold sent_matches, pool_init. simpl.
  induction (length voices) as [|n IH]; simpl; [done | exact IH].
Qed.

Lemma has_posted_collected (rs : list sample_result) :
  length (List.filter has_posted (Collected <$> rs))
  = count_status st_ok rs + count_status st_error rs.
Proof.
  unfold count_status. induction rs as [|r rs IH]; simpl; [done|].
  destruct r; simpl.
  - f_equal. apply IH.
  - apply IH.
  - rewrite Nat.add_succ_r. f_equal. apply IH.
Qed.

(** X13. When [main] returns, the number of synthesis requests it has sent
    is the number of voices reported generated plus the number reported
    failed: one request for every voice that was not skipped, none for a
    skipped one, and never a second one. *)
Theorem posts_match_tally (script_file : Path) (args : Args) (go : http_outcome)
    (evs : list event) (fs0 : FS) (st : pool) :
  main script_file args go evs fs0 = Some (Returned st) →
  length (posts (sent st)) = n_ok (results st) + n_error (results st).
Proof.
  intros [(voices & st0 & Hs & Hrun) Hall]%main_returned.
  apply main_setup_pool in Hs as (_ & _ & ->).
  pose proof (run_invariant _ _ _ _ _
                (λ ev s s' Hp Hst, step_sent _ _ _ _ ev s s' Hp Hst) _ _ _
                (init_sent_matches _ _ _) Hrun) as Hsent.
  destruct (run_final _ _ _ _ _ _ _ _ Hrun Hall) as (rs & Hi & _ & _ & H1 & _ & H3).
  rewrite Hsent, H1, H3, Hi, has_posted_collected.
  by rewrite !count_collected_fmap.
Qed.

Lemma posts_match_tally_witness :
  ∃ st,
    main script0 force_args (voices_reply two_voices) mixed_schedule mixed_fs
    = Some (Returned st)
    ∧ length (posts (sent st)) = n_ok (results st) + n_error (results st).
Proof.
  destruct (main_exit_0 script0 force_args (voices_reply two_voices)
              mixed_schedule mixed_fs) as [st Hst]; [vm_compute; reflexivity|].
  exists st. split; [exact Hst|].
  exact (posts_match_tally script0 force_args (voices_reply two_voices)
           mixed_schedule mixed_fs st Hst).
Defined.

Lemma step_requests (api_url : string) (voices : list string)
    (output_dir : Path) (max_workers : Z) (ev : event) (st st' : pool) :
  requests_in_order api_url voices (sent st) →
  step api_url voices output_dir max_workers ev st st' →
  requests_in_order api_url voices (sent st').
Proof.
  intros Hinv H. on_step H; simpl; try done.
  destruct Hinv as (ps & -> & Hps).
  unfold gs_begin in Hb. destruct (_ && _); [done|]. injection Hb as <-.
  exists (POST (speech_url api_url) (payload voice) :: ps). split; [done|].
  constructor; [|done]. exists voice. split; [|done].
  apply list_elem_of_lookup. eauto.
Qed.

(** X14. At every point of a run the requests sent are, in this order, the
    one GET of the voice list and then synthesis requests only, each a POST
    to [/v1/audio/speech] with the fixed payload for a voice of the list;
    there are never more of them than voices. *)
Theorem requests_of_a_run (script_file : Path) (args : Args) (go : http_outcome)
    (evs : list event) (fs0 : FS) (voices : list string) (st : pool) :
  get_voices (arg_api_url args) go = inr (Voices voices) →
  main_reaches script_file args go evs fs0 st →
  requests_in_order (arg_api_url args) voices (sent st)
  ∧ (length (posts (sent st)) ≤ length voices)%nat.
Proof.
  intros Hg (vs & Hg' & _ & Hlen & Hrun)%main_reaches_pool.
  rewrite Hg in Hg'. injection Hg' as <-. split.
  - eapply (run_invariant _ _ _ _ _
              (λ ev s s' Hp Hst, step_requests _ _ _ _ ev s s' Hp Hst));
      [|exact Hrun].
    exists []. by split.
  - pose proof (run_invariant _ _ _ _ _
                  (λ ev s s' Hp Hst, step_sent _ _ _ _ ev s s' Hp Hst) _ _ _
                  (init_sent_matches _ _ _) Hrun) as Hsent.
    rewrite Hsent, <- Hlen. clear.
    induction (items st) as [|ph l IH]; simpl; [done|].
    destruct (has_posted ph); simpl; lia.
Qed.

Lemma requests_of_a_run_witness :
  ∃ st,
    main_reaches script0 default_args (voices_reply two_voices) mixed_schedule ∅ st
    ∧ requests_in_order "http://localhost:8880" two_voices (sent st).
Proof.
  destruct (main_reaches_observed measure script0 default_args
              (voices_reply two_voices) mixed_schedule ∅ two_voices 0)
    as (st & Hr & _); [reflexivity | simpl; lia | vm_compute; reflexivity|].
  exists st. split; [exact Hr|].
  exact (proj1 (requests_of_a_run script0 default_args (voices_reply two_voices)
                  mixed_schedule ∅ two_voices st eq_refl Hr)).
Defined.

(** ** The files of a run *)

Lemma write_bytes_keeps (p q : Path) (data : bytes) (wo : write_outcome)
    (fs0 : FS) :
  is_Some (fs0 !! p) → is_Some ((write_bytes q data wo fs0).2 !! p).
Proof.
  intros H. destruct wo as [|e [n|]]; simpl; try done;
    (destruct (decide (q = p)) as [->|Hne];
     [rewrite lookup_insert_eq; eauto | by rewrite lookup_insert_ne]).
Qed.

Lemma step_keeps_paths (api_url : string) (voices : list string)
    (output_dir : Path) (max_workers : Z) (ev : event) (st st' : pool)
    (p : Path) :
  is_Some (fs st !! p) →
  step api_url voices output_dir max_workers ev st st' →
  is_Some (fs st' !! p).
Proof.
  intros Hp H. on_step H; simpl; try done.
  apply gs_store_cases in Hs as [-> _]. by apply write_bytes_keeps.
Qed.

Lemma step_other_paths (api_url : string) (voices : list string)
    (output_dir : Path) (max_workers : Z) (ev : event) (st st' : pool)
    (p : Path) :
  (∀ voice, voice ∈ voices → output_path output_dir voice ≠ p) →
  step api_url voices output_dir max_workers ev st st' →
  fs st' !! p = fs st !! p.
Proof.
  intros Hp H. apply (step_fs _ _ _ _ _ _ _ p H).
  intros i voice data Hv _. apply Hp, list_elem_of_lookup. eauto.
Qed.

Lemma step_file_kept (api_url : string) (voices : list string)
    (output_dir : Path) (max_workers : Z) (ev : event) (st st' : pool)
    (p : Path) (content : bytes) :
  content ≠ [] →
  file_kept voices output_dir p content st →
  step api_url voices output_dir max_workers ev st st' →
  file_kept voices output_dir p content st'.
Proof.
  intros Hne [Hfile Hidle] H. split.
  - rewrite (step_fs _ _ _ _ _ _ _ p H); [done|].
    intros i voice data Hv Hi Hp. by specialize (Hidle _ _ _ Hv Hp Hi).
  - intros j vj ph Hvj Hpj Hj.
    on_step H; simpl in Hj;
      apply list_lookup_insert_Some in Hj as [(-> & <- & _)|(_ & Hj)];
      try exact (Hidle _ _ _ Hvj Hpj Hj);
      try (rewrite Hvj in Hv; injection Hv as <-).
    + apply gs_begin_voice in Hb as ->. done.
    + rewrite gs_begin_skip in Hb; [done|]. exists content. by rewrite Hpj.
    + by specialize (Hidle _ _ _ Hvj Hpj Hi).
    + by specialize (Hidle _ _ _ Hvj Hpj Hi).
    + by specialize (Hidle _ _ _ Hvj Hpj Hi).
    + exact (Hidle _ _ _ Hvj Hpj Hi).
    + done.
    + done.
Qed.

(** The filesystem the pool of [main] starts from. *)
Lemma main_reaches_start (script_file : Path) (args : Args) (fs0 : FS)
    (p : Path) :
  force args = false ∨ is_mp3_child (OUTPUT_DIR script_file) p = false →
  (if force args then clear_samples (OUTPUT_DIR script_file) fs0 else fs0) !! p
  = fs0 !! p.
Proof.
  intros [->| H]; [done|]. destruct (force args); [|done].
  by rewrite clear_samples_lookup, H.
Qed.

(** X15. A sample that is on disk and not empty when the run starts is
    never rewritten or truncated by the run: at every point it holds the
    bytes it held, whatever the service answers (without [--force]; with
    [--force] the same holds for every file the cleanup does not match). *)
Theorem existing_sample_kept (script_file : Path) (args : Args)
    (go : http_outcome) (evs : list event) (fs0 : FS) (st : pool) (p : Path)
    (content : bytes) :
  force args = false ∨ is_mp3_child (OUTPUT_DIR script_file) p = false →
  fs0 !! p = Some content → content ≠ [] →
  main_reaches script_file args go evs fs0 st →
  fs st !! p = Some content.
Proof.
  intros Hf Hp Hne (voices & _ & _ & _ & Hrun)%main_reaches_pool.
  eapply (run_invariant _ _ _ _ _
            (λ ev s s' Hk Hst,
               step_file_kept _ _ _ _ ev s s' p content Hne Hk Hst)
            _ _ _ _ Hrun).
  Unshelve. split.
  - simpl. by rewrite main_reaches_start.
  - intros i voice ph _ _ [-> _]%lookup_replicate. done.
Qed.

Lemma existing_sample_kept_witness :
  ∃ st,
    main_reaches script0 default_args (voices_reply two_voices)
      [EvStart; EvStart; EvRespond 1 (speech_reply []); EvWrite 1 Written]
      mixed_fs st
    ∧ fs st !! output_path (OUTPUT_DIR script0) "af_bella" = Some audio.
Proof.
  destruct (main_reaches_observed in_flight script0 default_args
              (voices_reply two_voices)
              [EvStart; EvStart; EvRespond 1 (speech_reply []); EvWrite 1 Written]
              mixed_fs two_voices 0)
    as (st & Hr & _); [reflexivity | simpl; lia | vm_compute; reflexivity|].
  exists st. split; [exact Hr|].
  refine (existing_sample_kept script0 default_args (voices_reply two_voices)
            _ mixed_fs st _ audio _ _ _ Hr).
  - by left.
  - vm_compute; reflexivity.
  - discriminate.
Defined.

(** X16. The run never removes a file: without [--force], a path that
    exists when the run starts exists at every point of the run (with
    [--force], every path the cleanup does not match). *)
Theorem run_removes_nothing (script_file : Path) (args : Args)
    (go : http_outcome) (evs : list event) (fs0 : FS) (st : pool) (p : Path) :
  force args = false ∨ is_mp3_child (OUTPUT_DIR script_file) p = false →
  is_Some (fs0 !! p) →
  main_reaches script_file args go evs fs0 st →
  is_Some (fs st !! p).
Proof.
  intros Hf Hp (voices & _ & _ & _ & Hrun)%main_reaches_pool.
  eapply (run_invariant _ _ _ _ _
            (λ ev s s' Hk Hst, step_keeps_paths _ _ _ _ ev s s' p Hk Hst)
            _ _ _ _ Hrun).
  Unshelve. simpl. by rewrite main_reaches_start.
Qed.

Lemma run_removes_nothing_witness :
  ∃ st,
    main_reaches script0 default_args (voices_reply ["af_bella"])
      (partial_write_schedule audio 0) empty_sample_fs st
    ∧ is_Some (fs st !! output_path (OUTPUT_DIR script0) "af_bella").
Proof.
  destruct (main_reaches_observed in_flight script0 default_args
              (voices_reply ["af_bella"]) (partial_write_schedule audio 0)
              empty_sample_fs ["af_bella"] 0)
    as (st & Hr & _); [reflexivity | simpl; lia | vm_compute; reflexivity|].
  exists st. split; [exact Hr|].
  refine (run_removes_nothing script0 default_args (voices_reply ["af_bella"])
            _ empty_sample_fs st _ _ _ Hr).
  - by left.
  - exists []. apply lookup_singleton_eq.
Defined.

(** X17. The pool writes to the output files of the listed voices and
    nowhere else: when the identifiers contain no "/", a path that is
    [<voice>.mp3] in the output directory for no listed voice holds at
    every point of the run what it held when the run started (without
    [--force], or when the cleanup does not match it; for paths without
    ".." and links, so that different paths are different files). *)
Theorem run_writes_only_samples (script_file : Path) (args : Args)
    (go : http_outcome) (evs : list event) (fs0 : FS) (voices : list string)
    (st : pool) (p : Path) :
  force args = false ∨ is_mp3_child (OUTPUT_DIR script_file) p = false →
  get_voices (arg_api_url args) go = inr (Voices voices) →
  Forall plain_voice voices →
  canonical (OUTPUT_DIR script_file) → canonical p →
  (∀ voice, voice ∈ voices →
            p ≠ mkPath (root (OUTPUT_DIR script_file))
                  (parts (OUTPUT_DIR script_file) ++ [voice ++ ".mp3"])) →
  main_reaches script_file args go evs fs0 st →
  fs st !! p = fs0 !! p.
Proof.
  intros Hf Hg Hplain _ _ Hp (vs & Hg' & _ & _ & Hrun)%main_reaches_pool.
  rewrite Hg in Hg'. injection Hg' as <-.
  assert (Hp' : ∀ voice, voice ∈ voices →
                         output_path (OUTPUT_DIR script_file) voice ≠ p).
  { intros voice Hin Heq. apply (Hp voice Hin). rewrite <- Heq.
    apply output_path_plain. rewrite Forall_forall in Hplain. by apply Hplain. }
  rewrite <- (main_reaches_start script_file args fs0 p Hf).
  set (fs1 := if force args then clear_samples (OUTPUT_DIR script_file) fs0
              else fs0) in *.
  apply (run_invariant _ _ _ _ (λ s, fs s !! p = fs1 !! p)
           (λ ev s s' Hk Hst,
              eq_trans (step_other_paths _ _ _ _ ev s s' p Hp' Hst) Hk)
           _ _ _ eq_refl Hrun).
Qed.

Lemma run_writes_only_samples_witness :
  ∃ st,
    main_reaches script0 force_args (voices_reply two_voices) mixed_schedule
      mixed_fs st
    ∧ fs st !! (OUTPUT_DIR script0 // "notes.txt") = Some audio.
Proof.
  destruct (main_reaches_observed in_flight script0 force_args
              (voices_reply two_voices) mixed_schedule mixed_fs two_voices 0)
    as (st & Hr & _); [reflexivity | simpl; lia | vm_compute; reflexivity|].
  exists st. split; [exact Hr|].
  rewrite (run_writes_only_samples script0 force_args (voices_reply two_voices)
             mixed_schedule mixed_fs two_voices st
             (OUTPUT_DIR script0 // "notes.txt")).
  - vm_compute; reflexivity.
  - right. vm_compute; reflexivity.
  - reflexivity.
  - exact two_voices_plain.
  - exact canonical_output_dir.
  - split; [reflexivity|]. apply (bool_decide_unpack _). vm_compute. exact I.
  - intros voice Hin. repeat (apply elem_of_cons in Hin as [->|Hin]; [discriminate|]).
    by apply elem_of_nil in Hin.
  - exact Hr.
Defined.

(** ** Which voices are skipped *)

(** X18. Resuming a batch: without [--force], a voice whose sample is on
    disk and not empty when the run starts ends up [skipped], whatever the
    schedule of the pool and whatever the other voices are; its sample
    holds the bytes it held. *)
Theorem sample_present_skipped (script_file : Path) (args : Args)
    (go : http_outcome) (evs : list event) (fs0 : FS) (voices : list string)
    (st : pool) (i : nat) (voice : string) (r : sample_result) :
  force args = false →
  get_voices (arg_api_url args) go = inr (Voices voices) →
  main script_file args go evs fs0 = Some (Returned st) →
  voices !! i = Some voice →
  nonempty_file fs0 (output_path (OUTPUT_DIR script_file) voice) →
  out_results (Returned st) !! i = Some r →
  status_of r = st_skipped
  ∧ voice_of r = voice
  ∧ fs st !! output_path (OUTPUT_DIR script_file) voice
    = fs0 !! output_path (OUTPUT_DIR script_file) voice.
Proof.
  intros Hforce Hg [(vs & st0 & Hs & Hrun) Hall]%main_returned Hv
    (content & Hfile & Hne) Hr.
  apply main_setup_pool in Hs as (Hg' & _ & ->).
  rewrite Hg in Hg'. injection Hg' as <-. rewrite Hforce in Hrun.
  assert (Hinv : file_kept voices (OUTPUT_DIR script_file)
                   (output_path (OUTPUT_DIR script_file) voice) content st).
  { eapply (run_invariant _ _ _ _ _
              (λ ev s s' Hk Hst,
                 step_file_kept _ _ _ _ ev s s' _ content Hne Hk Hst)
              _ _ _ _ Hrun).
    Unshelve. split; [done|].
    intros j vj ph _ _ [-> _]%lookup_replicate. done. }
  destruct (run_final _ _ _ _ _ _ _ _ Hrun Hall) as (rs & Hi & Hvs & _).
  simpl in Hr. rewrite Hi, omap_result_collected in Hr.
  destruct Hinv as [Hkept Hidle].
  assert (Hc : items st !! i = Some (Collected r))
    by (by rewrite Hi, list_lookup_fmap, Hr).
  specialize (Hidle i voice (Collected r) Hv eq_refl Hc).
  repeat split.
  - unfold idle_or_skipped in Hidle. simpl in Hidle.
    by destruct (decide (status_of r = st_skipped)) as [?|Hns];
      [|rewrite bool_decide_eq_false_2 in Hidle].
  - apply (f_equal (λ l, l !! i)) in Hvs. rewrite list_lookup_fmap, Hr, Hv in Hvs.
    by injection Hvs.
  - by rewrite Hkept, Hfile.
Qed.

Lemma sample_present_skipped_witness :
  ∃ st r,
    main script0 default_args (voices_reply two_voices)
      [EvStart; EvStart; EvRespond 1 server_error; EvCollect 0; EvCollect 1]
      mixed_fs = Some (Returned st)
    ∧ nonempty_file mixed_fs (output_path (OUTPUT_DIR script0) "af_bella")
    ∧ out_results (Returned st) !! 0 = Some r
    ∧ status_of r = st_skipped.
Proof.
  destruct (main_exit_0 script0 default_args (voices_reply two_voices)
              [EvStart; EvStart; EvRespond 1 server_error; EvCollect 0; EvCollect 1]
              mixed_fs) as [st Hst]; [vm_compute; reflexivity|].
  assert (Hobs : out_results <$> main script0 default_args
                   (voices_reply two_voices)
                   [EvStart; EvStart; EvRespond 1 server_error; EvCollect 0;
                    EvCollect 1] mixed_fs
                 = Some [Skipped "af_bella" (output_path (OUTPUT_DIR script0) "af_bella");
                         Error "am_adam"
                           "500 Server Error: Internal Server Error for url: http://localhost:8880/v1/audio/speech"])
    by (vm_compute; reflexivity).
  rewrite Hst in Hobs. injection Hobs as Hobs.
  assert (Hfile : nonempty_file mixed_fs (output_path (OUTPUT_DIR script0) "af_bella")).
  { exists audio. split; [vm_compute; reflexivity | discriminate]. }
  assert (Hr : out_results (Returned st) !! 0
               = Some (Skipped "af_bella" (output_path (OUTPUT_DIR script0) "af_bella")))
    by (simpl in Hobs |- *; by rewrite Hobs).
  exists st, (Skipped "af_bella" (output_path (OUTPUT_DIR script0) "af_bella")).
  split; [exact Hst|]. split; [exact Hfile|]. split; [exact Hr|].
  exact (proj1 (sample_present_skipped script0 default_args
                  (voices_reply two_voices) _ mixed_fs two_voices st 0 "af_bella"
                  _ eq_refl eq_refl Hst eq_refl Hfile Hr)).
Defined.

(** ** The pool and generate_sample *)



(** ** Runs that end before the pool *)

(** X20. When the voice list cannot be fetched the process ends with
    status 1, no synthesis request sent and no file created, changed or
    removed, also under [--force] (the cleanup comes after the fetch): of
    the filesystem only the output directory itself may be new, made by
    line 91.  Unless line 91 raised, the process ends at [sys.exit(1)]
    with the GET as the only request. *)
Theorem fetch_failure_touches_nothing (script_file : Path) (args : Args)
    (go : http_outcome) (evs : list event) (fs0 : FS) (e : exn) :
  get_voices (arg_api_url args) go = inl e →
  ∃ out, process script_file args go evs fs0 = Some out
         ∧ exit_code out = 1%Z
         ∧ out_fs out = fs0
         ∧ posts (out_sent out) = []
         ∧ (¬ mkdir_raises evs →
            out = SysExit 1 fs0 [GET (arg_api_url args ++ "/v1/audio/voices")]).
Proof.
  intros Hg. unfold process, main_setup. rewrite Hg.
  destruct evs as [|[] evs']; eexists; (split; [done|]); repeat split; try done.
  intros []. by eexists _, _.
Qed.

Lemma fetch_failure_touches_nothing_witness :
  ∃ out,
    process script0 force_args (Raises (RequestException "Connection refused"))
      mixed_schedule mixed_fs = Some out
    ∧ exit_code out = 1%Z ∧ out_fs out = mixed_fs.
Proof.
  destruct (fetch_failure_touches_nothing script0 force_args
              (Raises (RequestException "Connection refused")) mixed_schedule
              mixed_fs (RequestException "Connection refused") eq_refl)
    as (out & H & Hc & Hfs & _).
  by exists out.
Defined.

(** X21. With a batch size of 0 or less and a voice list that was fetched,
    when neither [mkdir] nor an [unlink] of the cleanup raises, the pool
    constructor raises before any work item exists: the process ends with
    status 1 and no synthesis request, but under [--force] the samples have
    already been removed, and none is generated. *)
Theorem nonpositive_batch_size (script_file : Path) (args : Args)
    (go : http_outcome) (evs : list event) (fs0 : FS) (voices : list string) :
  get_voices (arg_api_url args) go = inr (Voices voices) →
  (batch_size args ≤ 0)%Z →
  ¬ mkdir_raises evs → ¬ unlink_raises evs →
  ∃ out, process script_file args go evs fs0 = Some out
         ∧ exit_code out = 1%Z
         ∧ posts (out_sent out) = []
         ∧ out_results out = []
         ∧ (force args = false → out_fs out = fs0)
         ∧ (force args = true →
            ∀ p, out_fs out !! p
                 = if is_mp3_child (OUTPUT_DIR script_file) p then None
                   else fs0 !! p).
Proof.
  intros Hg Hw Hm Hu. unfold process, main_setup, ThreadPoolExecutor. rewrite Hg.
  rewrite bool_decide_eq_true_2 by done.
  destruct evs as [|[] evs']; try (exfalso; apply Hm; by eexists _, _);
    try (exfalso; apply Hu; by eexists _, _, _);
    (eexists; split; [done|]; simpl; repeat split; try done;
     [by intros -> | intros -> p; apply clear_samples_lookup]).
Qed.

Lemma nonpositive_batch_size_witness :
  ∃ out,
    process script0 (mkArgs "http://localhost:8880" 0 true) (voices_reply two_voices)
      [] mixed_fs = Some out
    ∧ exit_code out = 1%Z
    ∧ out_fs out !! output_path (OUTPUT_DIR script0) "af_bella" = None.
Proof.
  destruct (nonpositive_batch_size script0 (mkArgs "http://localhost:8880" 0 true)
              (voices_reply two_voices) [] mixed_fs two_voices eq_refl)
    as (out & H & Hc & _ & _ & _ & Hfs);
    [simpl; lia | by intros (? & ? & ?) | by intros (? & ? & ? & ?) |].
  exists out. split; [exact H|]. split; [exact Hc|].
  rewrite (Hfs eq_refl). vm_compute; reflexivity.
Defined.
